(** * Metro's DependencyGraph: a shallow embedding and its verified properties

    The development follows [DependencyGraph.js]: the Node.js services the
    class calls ([path], [fs], [crypto]) come first, then the collaborators
    it owns (registry snapshot, caches, resolver), then the class itself,
    and finally the properties of its methods. *)

From Stdlib Require Import ZArith Ascii String.
From stdpp Require Import base option list gmap strings.

Local Open Scope nat_scope.

(** ** JavaScript strings

    A JavaScript string is modelled by [string], read as its UTF-8 bytes;
    index-based operations ([charCodeAt], [slice]) work on its list of
    characters.  The separators and dots that [path] looks for are single
    bytes in UTF-8 as they are single code units in UTF-16. *)

Definition chars (s : string) : list ascii := list_ascii_of_string s.
Definition unchars (l : list ascii) : string := string_of_list_ascii l.

(** [s.charCodeAt(i) === c]; out of range [charCodeAt] is NaN, equal to nothing. *)
Definition char_is (p : list ascii) (i : nat) (c : ascii) : bool :=
  match p !! i with
  | Some d => Ascii.eqb d c
  | None => false
  end.

(** [s.slice(a, b)] for [0 <= a], [0 <= b]. *)
Definition slice (p : list ascii) (a b : nat) : list ascii :=
  take (b - a) (drop a p).

(** JavaScript truthiness of a [?string]: [null], [undefined] and the empty
    string are falsy. *)
Definition truthy (v : option string) : bool :=
  match v with
  | Some s => negb (String.eqb s "")
  | None => false
  end.

(** ** Node's [path] module, POSIX flavour *)

Module path.

Definition SLASH : ascii := "/"%char.
Definition DOT : ascii := "."%char.

(** The backwards scan of [path.dirname]:
    [for (i = path.length - 1; i >= 1; --i)], yielding [end] when the loop
    breaks and [None] when it runs to completion ([end === -1]). *)
Fixpoint dirname_scan (p : list ascii) (i : nat) (matchedSlash : bool) : option nat :=
  match i with
  | 0 => None
  | S i' =>
      if char_is p i SLASH then
        if matchedSlash then dirname_scan p i' matchedSlash else Some i
      else dirname_scan p i' false
  end.

(** [path.dirname(path)] *)
Definition dirname_chars (p : list ascii) : list ascii :=
  match p with
  | [] => [DOT]
  | _ =>
      let hasRoot := char_is p 0 SLASH in
      match dirname_scan p (length p - 1) true with
      | None => if hasRoot then [SLASH] else [DOT]
      | Some e => if hasRoot && (e =? 1) then [SLASH; SLASH] else slice p 0 e
      end
  end.

Definition dirname (p : string) : string := unchars (dirname_chars (chars p)).

(** The backwards scan of [path.parse], [for (; i >= start; --i)], reduced to
    the variable that decides [dir]: it yields [startPart] (0 when the loop
    never breaks).  [k] is [i + 1].  The extension bookkeeping of the loop
    ([startDot], [preDotState]) only feeds [base], [ext] and [name]. *)
Fixpoint parse_scan (p : list ascii) (start k : nat) (matchedSlash : bool) : nat :=
  match k with
  | 0 => 0
  | S i =>
      if i <? start then 0
      else if char_is p i SLASH then
        if matchedSlash then parse_scan p start i matchedSlash else i + 1
      else parse_scan p start i false
  end.

(** The two fields of [path.parse(p)] the graph reads. *)
Record ParsedPath := { root : string; dir : string }.

Definition parse (s : string) : ParsedPath :=
  let p := chars s in
  match p with
  | [] => {| root := ""; dir := "" |}
  | _ =>
      let isAbsolute := char_is p 0 SLASH in
      let start := if isAbsolute then 1 else 0 in
      let startPart := parse_scan p start (length p) true in
      {| root := if isAbsolute then "/" else "";
         dir := if 0 <? startPart then unchars (slice p 0 (startPart - 1))
                else if isAbsolute then "/" else "" |}
  end.

(** [s.split('/')]. *)
Fixpoint split_slash (p : list ascii) : list (list ascii) :=
  match p with
  | [] => [[]]
  | c :: p' =>
      if Ascii.eqb c SLASH then [] :: split_slash p'
      else match split_slash p' with
           | seg :: segs => (c :: seg) :: segs
           | [] => [[c]]
           end
  end.

(** [segs.join('/')]. *)
Fixpoint join_slash (segs : list (list ascii)) : list ascii :=
  match segs with
  | [] => []
  | [seg] => seg
  | seg :: segs' => seg ++ SLASH :: join_slash segs'
  end.

(** One segment pushed on the stack of already normalized segments (most
    recent first): empty and [.] segments vanish, [..] removes the segment
    before it unless there is none or it is itself [..]. *)
Definition normalize_step (allowAboveRoot : bool) (stack : list (list ascii))
    (seg : list ascii) : list (list ascii) :=
  if decide (seg = [] ∨ seg = [DOT]) then stack
  else if decide (seg = [DOT; DOT]) then
    match stack with
    | top :: rest =>
        if decide (top = [DOT; DOT]) then seg :: stack else rest
    | [] => if allowAboveRoot then [seg] else []
    end
  else seg :: stack.

(** What [normalizeString(path, allowAboveRoot, '/')] computes, segment by
    segment. *)
Definition normalizeString (p : list ascii) (allowAboveRoot : bool) : list ascii :=
  join_slash (reverse (foldl (normalize_step allowAboveRoot) [] (split_slash p))).

(** [path.normalize(path)] *)
Definition normalize_chars (p : list ascii) : list ascii :=
  match p with
  | [] => [DOT]
  | _ =>
      let isAbsolute := char_is p 0 SLASH in
      let trailingSeparator := char_is p (length p - 1) SLASH in
      let q := normalizeString p (negb isAbsolute) in
      match q with
      | [] => if isAbsolute then [SLASH]
              else if trailingSeparator then [DOT; SLASH] else [DOT]
      | _ =>
          let q' := if trailingSeparator then q ++ [SLASH] else q in
          if isAbsolute then SLASH :: q' else q'
      end
  end.

(** [path.join(a, b)]: empty arguments are skipped, the rest are glued with
    [/] and normalized. *)
Definition join (a b : string) : string :=
  match chars a, chars b with
  | [], [] => "."
  | [], q => unchars (normalize_chars q)
  | p, [] => unchars (normalize_chars p)
  | p, q => unchars (normalize_chars (p ++ SLASH :: q))
  end.

(** The backwards scan of [path.basename], [for (i = length - 1; i >= 0; --i)],
    yielding [(start, end)]; [k] is [i + 1] and [None] stands for [-1]. *)
Fixpoint basename_scan (p : list ascii) (k : nat) (matchedSlash : bool)
    (end_ : option nat) : nat * option nat :=
  match k with
  | 0 => (0, end_)
  | S i =>
      if char_is p i SLASH then
        if matchedSlash then basename_scan p i matchedSlash end_ else (i + 1, end_)
      else match end_ with
           | None => basename_scan p i false (Some (i + 1))
           | Some _ => basename_scan p i matchedSlash end_
           end
  end.

(** [path.basename(path)] *)
Definition basename (s : string) : string :=
  let p := chars s in
  match basename_scan p (length p) true None with
  | (_, None) => ""
  | (start, Some e) => unchars (slice p start e)
  end.

(** The segments of [path.resolve(s)]: [s] made absolute against the working
    directory and normalized. *)
Definition resolved_segments (cwd s : string) : list (list ascii) :=
  let p := chars s in
  let full := if char_is p 0 SLASH then p else chars cwd ++ SLASH :: p in
  reverse (foldl (normalize_step false) [] (split_slash full)).

Fixpoint strip_common (a b : list (list ascii)) : list (list ascii) * list (list ascii) :=
  match a, b with
  | x :: a', y :: b' => if decide (x = y) then strip_common a' b' else (a, b)
  | _, _ => (a, b)
  end.

(** [path.relative(from, to)]: both paths are resolved, their common leading
    segments dropped, and one [..] emitted for every segment left of
    [from]. *)
Definition relative (cwd from to : string) : string :=
  if decide (from = to) then ""
  else
    let '(up, down) := strip_common (resolved_segments cwd from) (resolved_segments cwd to) in
    unchars (join_slash (((λ _, [DOT; DOT]) <$> up) ++ down)).

End path.

(** ** Node's [crypto]: SHA-1 over the UTF-8 bytes of a string, in hex *)

Module crypto.

Local Open Scope Z_scope.

Definition mask32 (x : Z) : Z := Z.land x 0xFFFFFFFF.
Definition add32 (x y : Z) : Z := mask32 (x + y).
Definition rotl (n x : Z) : Z :=
  mask32 (Z.lor (Z.shiftl x n) (Z.shiftr x (32 - n))).

Definition byte_of (c : ascii) : Z := Z.of_N (N_of_ascii c).

(** Message padding: a [1] bit, zeros up to 56 mod 64, the bit length on
    eight bytes, big endian. *)
Definition be_bytes (count : nat) (x : Z) : list Z :=
  (λ i : nat, Z.land (Z.shiftr x (8 * Z.of_nat (count - 1 - i))) 0xFF) <$> seq 0 count.

Definition pad (msg : list Z) : list Z :=
  let len := Z.of_nat (length msg) in
  let zeros := Z.to_nat ((55 - len) mod 64) in
  msg ++ 0x80 :: replicate zeros 0 ++ be_bytes 8 (8 * len).

Fixpoint be_words (bytes : list Z) (count : nat) : list Z :=
  match count, bytes with
  | S n, a :: b :: c :: d :: rest =>
      Z.lor (Z.shiftl a 24) (Z.lor (Z.shiftl b 16) (Z.lor (Z.shiftl c 8) d))
        :: be_words rest n
  | _, _ => []
  end.

(** The message schedule, most recent word first. *)
Fixpoint schedule (count : nat) (ws : list Z) : list Z :=
  match count with
  | O => ws
  | S n =>
      let w := rotl 1 (Z.lxor (Z.lxor (nth 2 ws 0) (nth 7 ws 0))
                              (Z.lxor (nth 13 ws 0) (nth 15 ws 0))) in
      schedule n (w :: ws)
  end.

Definition f (t : nat) (b c d : Z) : Z :=
  if (t <? 20)%nat then Z.lor (Z.land b c) (Z.land (Z.lxor b 0xFFFFFFFF) d)
  else if (t <? 40)%nat then Z.lxor (Z.lxor b c) d
  else if (t <? 60)%nat then Z.lor (Z.lor (Z.land b c) (Z.land b d)) (Z.land c d)
  else Z.lxor (Z.lxor b c) d.

Definition K (t : nat) : Z :=
  if (t <? 20)%nat then 0x5A827999
  else if (t <? 40)%nat then 0x6ED9EBA1
  else if (t <? 60)%nat then 0x8F1BBCDC
  else 0xCA62C1D6.

Record State := { h0 : Z; h1 : Z; h2 : Z; h3 : Z; h4 : Z }.

Definition round (st : State) (tw : nat * Z) : State :=
  let '(t, w) := tw in
  let tmp := add32 (add32 (add32 (add32 (rotl 5 (h0 st)) (f t (h1 st) (h2 st) (h3 st)))
                                  (h4 st)) (K t)) w in
  {| h0 := tmp; h1 := h0 st; h2 := rotl 30 (h1 st); h3 := h2 st; h4 := h3 st |}.

Definition block (st : State) (bytes : list Z) : State :=
  let ws := reverse (schedule 64 (reverse (be_words bytes 16))) in
  let st' := foldl round st (zip (seq 0 80) ws) in
  {| h0 := add32 (h0 st) (h0 st'); h1 := add32 (h1 st) (h1 st');
     h2 := add32 (h2 st) (h2 st'); h3 := add32 (h3 st) (h3 st');
     h4 := add32 (h4 st) (h4 st') |}.

Fixpoint blocks (count : nat) (st : State) (bytes : list Z) : State :=
  match count with
  | O => st
  | S n => blocks n (block st (take 64 bytes)) (drop 64 bytes)
  end.

Definition init : State :=
  {| h0 := 0x67452301; h1 := 0xEFCDAB89; h2 := 0x98BADCFE;
     h3 := 0x10325476; h4 := 0xC3D2E1F0 |}.

Definition hex_digit (x : Z) : ascii :=
  nth (Z.to_nat x) (chars "0123456789abcdef") "0"%char.

Definition hex32 (x : Z) : list ascii :=
  (λ i : nat, hex_digit (Z.land (Z.shiftr x (4 * Z.of_nat (7 - i))) 0xF)) <$> seq 0 8.

(** [crypto.createHash('sha1').update(content).digest('hex')]. *)
Definition sha1_hex (content : string) : string :=
  let bytes := pad (byte_of <$> chars content) in
  let st := blocks (length bytes / 64) init bytes in
  unchars (hex32 (h0 st) ++ hex32 (h1 st) ++ hex32 (h2 st) ++ hex32 (h3 st) ++ hex32 (h4 st)).

End crypto.

(** ** UTF-8, as Node decodes a [Buffer] and encodes a string

    [buffer.toString('utf8')] decodes bytes into code points and replaces
    every ill-formed sequence by U+FFFD, one per maximal subpart;
    [hash.update(string)] encodes the code points again.  Bytes and code
    points are integers. *)

Module utf8.

Local Open Scope Z_scope.

(** The state of the decoder between two bytes. *)
Record Decoder := {
  code_point : Z;
  bytes_seen : Z;
  bytes_needed : Z;
  lower_boundary : Z;
  upper_boundary : Z;
}.

Definition initial : Decoder :=
  {| code_point := 0; bytes_seen := 0; bytes_needed := 0;
     lower_boundary := 0x80; upper_boundary := 0xBF |}.

Definition REPLACEMENT : Z := 0xFFFD.

Definition in_range (lo hi byte : Z) : bool := (lo <=? byte) && (byte <=? hi).

(** A byte met while no sequence is open. *)
Definition lead (byte : Z) : list Z * Decoder :=
  if in_range 0x00 0x7F byte then ([byte], initial)
  else if in_range 0xC2 0xDF byte then
    ([], {| code_point := Z.land byte 0x1F; bytes_seen := 0; bytes_needed := 1;
            lower_boundary := 0x80; upper_boundary := 0xBF |})
  else if in_range 0xE0 0xEF byte then
    ([], {| code_point := Z.land byte 0xF; bytes_seen := 0; bytes_needed := 2;
            lower_boundary := if byte =? 0xE0 then 0xA0 else 0x80;
            upper_boundary := if byte =? 0xED then 0x9F else 0xBF |})
  else if in_range 0xF0 0xF4 byte then
    ([], {| code_point := Z.land byte 0x7; bytes_seen := 0; bytes_needed := 3;
            lower_boundary := if byte =? 0xF0 then 0x90 else 0x80;
            upper_boundary := if byte =? 0xF4 then 0x8F else 0xBF |})
  else ([REPLACEMENT], initial).

(** One byte: the code points it completes and the next state.  A byte that
    cannot continue the open sequence ends it with U+FFFD and is read again
    as a first byte. *)
Definition handler (d : Decoder) (byte : Z) : list Z * Decoder :=
  if bytes_needed d =? 0 then lead byte
  else if negb (in_range (lower_boundary d) (upper_boundary d) byte) then
    let '(out, d') := lead byte in (REPLACEMENT :: out, d')
  else
    let cp := Z.lor (Z.shiftl (code_point d) 6) (Z.land byte 0x3F) in
    let seen := bytes_seen d + 1 in
    if seen =? bytes_needed d then ([cp], initial)
    else ([], {| code_point := cp; bytes_seen := seen; bytes_needed := bytes_needed d;
                 lower_boundary := 0x80; upper_boundary := 0xBF |}).

(** The end of the input inside a sequence gives one more U+FFFD. *)
Fixpoint run (d : Decoder) (bytes : list Z) : list Z :=
  match bytes with
  | [] => if bytes_needed d =? 0 then [] else [REPLACEMENT]
  | byte :: rest => let '(out, d') := handler d byte in out ++ run d' rest
  end.

Definition decode (bytes : list Z) : list Z := run initial bytes.

Fixpoint trail (cp : Z) (count : nat) : list Z :=
  match count with
  | O => []
  | S count' =>
      Z.lor 0x80 (Z.land (Z.shiftr cp (6 * Z.of_nat count')) 0x3F) :: trail cp count'
  end.

Definition encode_code_point (cp : Z) : list Z :=
  if in_range 0x00 0x7F cp then [cp]
  else
    let '(count, offset) :=
      if in_range 0x80 0x7FF cp then (1%nat, 0xC0)
      else if in_range 0x800 0xFFFF cp then (2%nat, 0xE0)
      else (3%nat, 0xF0) in
    (Z.shiftr cp (6 * Z.of_nat count) + offset) :: trail cp count.

Definition encode (cps : list Z) : list Z := cps ≫= encode_code_point.

Definition byte_of (c : ascii) : Z := Z.of_N (N_of_ascii c).
Definition of_byte (b : Z) : ascii := ascii_of_N (Z.to_N b).

(** [buffer.toString('utf8')]; the string that results is kept, like every
    string here, as its UTF-8 bytes. *)
Definition toString (buffer : list ascii) : string :=
  unchars (of_byte <$> encode (decode (byte_of <$> buffer))).

(** Well-formed UTF-8, after the table of the Unicode standard: the ranges
    of the second byte depend on the first, which excludes overlong forms,
    surrogates and code points above U+10FFFF. *)
Definition continuation (byte : Z) : bool := in_range 0x80 0xBF byte.

Fixpoint well_formed (bytes : list Z) : bool :=
  match bytes with
  | [] => true
  | b0 :: rest =>
      if in_range 0x00 0x7F b0 then well_formed rest
      else if in_range 0xC2 0xDF b0 then
        match rest with
        | b1 :: rest' => continuation b1 && well_formed rest'
        | _ => false
        end
      else if in_range 0xE0 0xEF b0 then
        match rest with
        | b1 :: b2 :: rest' =>
            (if b0 =? 0xE0 then in_range 0xA0 0xBF b1
             else if b0 =? 0xED then in_range 0x80 0x9F b1
             else continuation b1)
            && continuation b2 && well_formed rest'
        | _ => false
        end
      else if in_range 0xF0 0xF4 b0 then
        match rest with
        | b1 :: b2 :: b3 :: rest' =>
            (if b0 =? 0xF0 then in_range 0x90 0xBF b1
             else if b0 =? 0xF4 then in_range 0x80 0x8F b1
             else continuation b1)
            && continuation b2 && continuation b3 && well_formed rest'
        | _ => false
        end
      else false
  end.

End utf8.

(** ** Exceptions *)

Inductive JsError :=
| ReferenceError (message : string)
| SystemError (code : string) (file : string)
| ModuleNotFoundError (origin specifier : string) (platform : option string).

(** ** Node's [fs]: the three synchronous calls the graph makes

    A call returns its value or fails with an error code ([ENOENT],
    [EISDIR], [EACCES], ...), thrown as a [SystemError]. *)

Module fs.

Record t := {
  realpathSync : string → string + string;
  (** [readFileSync(p)], without an encoding: the bytes of the file *)
  readFileSync_raw : string → string + list ascii;
  (** [lstatSync(p).isDirectory()] *)
  lstatSync_isDirectory : string → string + bool;
}.

(** [readFileSync(p, 'utf8')]: the bytes of the file, decoded as text. *)
Definition readFileSync (disk : t) (p : string) : string + string :=
  match readFileSync_raw disk p with
  | inl code => inl code
  | inr buffer => inr (utf8.toString buffer)
  end.

(** A disk holding regular files (path to content, as bytes) and symbolic
    links (path to target path). *)
Definition of_files (files links : gmap string string) : t :=
  {| realpathSync := λ p,
       let target := default p (links !! p) in
       if bool_decide (is_Some (files !! target)) then inr target else inl "ENOENT";
     readFileSync_raw := λ p,
       match files !! default p (links !! p) with
       | Some content => inr (chars content)
       | None => inl "ENOENT"
       end;
     lstatSync_isDirectory := λ p,
       if bool_decide (is_Some (files !! p) ∨ is_Some (links !! p)) then inr false
       else inl "ENOENT" |}.

End fs.

(** ** The registry snapshot handed over by jest-haste-map

    [HasteFS] is the interface of [./types]; a [?string] is an
    [option string]. *)

Module HasteFS.

Record t := {
  exists_ : string → bool;
  getAllFiles : list string;
  getModuleName : string → option string;
  getSha1 : string → option string;
}.

(** jest-haste-map's file table: per path, the haste id (empty when the file
    has none) and the SHA-1 when it was computed. *)
Record FileMetaData := { ID : string; SHA1 : option string }.

(** jest-haste-map's implementation of the interface over its file table:
    [(files[file] && files[file][H.ID]) || null] and the like. *)
Definition of_files (files : gmap string FileMetaData) : t :=
  {| exists_ := λ file, bool_decide (is_Some (files !! file));
     getAllFiles := (map_to_list files).*1;
     getModuleName := λ file,
       m ← files !! file; if String.eqb (ID m) "" then None else Some (ID m);
     getSha1 := λ file,
       m ← files !! file; h ← SHA1 m; if String.eqb h "" then None else Some h |}.

End HasteFS.

(** The global name registry of jest-haste-map: name to path. *)
Abbreviation ModuleMap := (gmap string string).

(** ** Configuration (the fields of [ConfigT] the graph reads) *)

Record ResolverConfigT := {
  assetExts : list string;
  extraNodeModules : gmap string string;
  platforms : list string;
  providesModuleNodeModules : list string;
  resolverMainFields : list string;
  sourceExts : list string;
}.

Record ConfigT := {
  projectRoot : string;
  resolver : ResolverConfigT;
}.

(** ** Collaborators owned by the graph *)

Module DependencyGraphHelpers.

Record t := {
  _assetExts : list string;
  _providesModuleNodeModules : list string;
}.

End DependencyGraphHelpers.

Module FilesByDirNameIndex.

(** Modelled from the spec: the class [FilesByDirNameIndex], whose file is
    not part of the sources at hand.  It maps a directory path to the set of
    base names of the tracked files directly inside it, and is only ever
    built whole from the list of all tracked paths. *)
Definition new (allFilePaths : list string) : gmap string (gset string) :=
  foldl (λ index filePath,
           let dirName := path.dirname filePath in
           <[dirName := {[path.basename filePath]} ∪ index !!! dirName]> index)
        ∅ allFilePaths.

(** Modelled from the spec: [getAllFiles(dirPath)] of the same class, the
    base names listed under a directory, none for an untracked directory. *)
Definition getAllFiles (index : gmap string (gset string)) (dirPath : string) : gset string :=
  index !!! dirPath.

End FilesByDirNameIndex.

Module AssetResolutionCache.

Abbreviation Key := (string * string * option string)%type.

(** Modelled from the spec: the class [AssetResolutionCache], whose file is
    not part of the sources at hand.  [resolve] is memoized by the full key
    (directory, asset base name, platform) and [clear] forgets every entry.
    How candidates of a directory listing are ranked is the field [rank]. *)
Record t := {
  rank : gset string → string → option string → option (list string);
  entries : gmap Key (option (list string));
}.

(** Modelled from the spec: the constructor of [AssetResolutionCache]; the
    cache starts empty. *)
Definition new (rank : gset string → string → option string → option (list string)) : t :=
  {| rank := rank; entries := ∅ |}.

(** Modelled from the spec: [clear()] of [AssetResolutionCache], which
    forgets every memoized resolution. *)
Definition clear (cache : t) : t :=
  {| rank := rank cache; entries := ∅ |}.

(** Modelled from the spec: [resolve(dirPath, assetName, platform)] of
    [AssetResolutionCache]: the memoized answer when there is one, else the
    ranking of the files listed for the directory, which is then
    memoized. *)
Definition resolve (getDirFiles : string → gset string) (dirPath assetName : string)
    (platform : option string) (cache : t) : option (list string) * t :=
  match entries cache !! (dirPath, assetName, platform) with
  | Some found => (found, cache)
  | None =>
      let found := rank cache (getDirFiles dirPath) assetName platform in
      (found, {| rank := rank cache;
                 entries := <[(dirPath, assetName, platform) := found]> (entries cache) |})
  end.

End AssetResolutionCache.

Module ModuleCache.

(** Per-path metadata of a source file. *)
Record Module := { path : string }.

(** The kind of a change event of jest-haste-map. *)
Inductive EventType := add | change | delete.

(** Modelled from the spec: [getModule(filePath)] of the class
    [ModuleCache], whose file is not part of the sources at hand.  The cache
    holds one entry per path, created and cached on first access; creating
    the entry of a path without readable content is an I/O error. *)
Definition getModule (disk : fs.t) (filePath : string) (cache : gmap string Module)
    : (JsError + Module) * gmap string Module :=
  match cache !! filePath with
  | Some m => (inr m, cache)
  | None =>
      match fs.readFileSync disk filePath with
      | inl code => (inl (SystemError code filePath), cache)
      | inr _ => let m := {| path := filePath |} in (inr m, <[filePath := m]> cache)
      end
  end.

(** Modelled from the spec: [processFileChange(type, filePath)] of
    [ModuleCache]: the entry of the path is purged, whatever the kind of the
    event. *)
Definition processFileChange (type : EventType) (filePath : string)
    (cache : gmap string Module) : gmap string Module :=
  base.delete filePath cache.

End ModuleCache.

Module ModuleResolver.

(** The data fields of the options object built by
    [_createModuleResolver]; the function-valued options ([dirExists],
    [doesFileExist], [resolveAsset], the module cache) read the graph when
    they are called and are the requests of [Resolution] below. *)
Record t := {
  extraNodeModules : gmap string string;
  mainFields : list string;
  moduleMap : ModuleMap;
  preferNativePlatform : bool;
  sourceExts : list string;
}.

End ModuleResolver.

(** Modelled from the spec: [ResolutionRequest] and the resolution algorithm
    of [ModuleResolver], whose files are not part of the sources at hand.  A
    resolution is any program over the capabilities the graph hands to it:
    the closures and the module cache passed in [_createModuleResolver],
    [_createModuleCache] and [resolveDependency].  It ends with a path or
    with "module not found". *)
Inductive Resolution :=
| Resolved (file : string)
| NotFound
| DoesFileExist (filePath : string) (k : bool → Resolution)
| DirExists (filePath : string) (k : bool → Resolution)
| GetModule (filePath : string) (k : ModuleCache.Module → Resolution)
| GetClosestPackage (filePath : string) (k : option string → Resolution)
| ResolveAsset (dirPath assetName : string) (platform : option string)
    (k : option (list string) → Resolution).

Module ResolutionRequest.

(** The immutable options of one request. *)
Record t := {
  moduleResolver : ModuleResolver.t;
  entryPath : string;
  helpers : DependencyGraphHelpers.t;
  platform : option string;
}.

(** Modelled from the spec: the code of
    [resolveDependency(fromModule, toModuleName)] of [ResolutionRequest], any
    function from the request, the origin module and the specifier to a
    resolution. *)
Abbreviation Algorithm := (t → ModuleCache.Module → string → Resolution).

End ResolutionRequest.

(** ** The state of a [DependencyGraph] instance and of the process around it *)

Record DependencyGraph := {
  _assetResolutionCache : AssetResolutionCache.t;
  _config : ConfigT;
  _filesByDirNameIndex : gmap string (gset string);
  _hasteFS : HasteFS.t;
  _helpers : DependencyGraphHelpers.t;
  _moduleCache : gmap string ModuleCache.Module;
  _moduleMap : ModuleMap;
  _moduleResolver : ModuleResolver.t;
}.

(** The process: the disk, the working directory, the graph instance
    ([this]) and, for its [EventEmitter] side, every event emitted so far
    together with the state of the graph its listeners were called in. *)
Record World := {
  disk : fs.t;
  cwd : string;
  this : DependencyGraph;
  emitted : list (string * DependencyGraph);
}.

Definition with_this (g : DependencyGraph) (w : World) : World :=
  {| disk := disk w; cwd := cwd w; this := g; emitted := emitted w |}.

(** Field assignments [this._x = v]. *)
Definition set_assetResolutionCache (v : AssetResolutionCache.t) (g : DependencyGraph) :=
  {| _assetResolutionCache := v; _config := _config g;
     _filesByDirNameIndex := _filesByDirNameIndex g; _hasteFS := _hasteFS g;
     _helpers := _helpers g; _moduleCache := _moduleCache g;
     _moduleMap := _moduleMap g; _moduleResolver := _moduleResolver g |}.

Definition set_filesByDirNameIndex (v : gmap string (gset string)) (g : DependencyGraph) :=
  {| _assetResolutionCache := _assetResolutionCache g; _config := _config g;
     _filesByDirNameIndex := v; _hasteFS := _hasteFS g;
     _helpers := _helpers g; _moduleCache := _moduleCache g;
     _moduleMap := _moduleMap g; _moduleResolver := _moduleResolver g |}.

Definition set_hasteFS (v : HasteFS.t) (g : DependencyGraph) :=
  {| _assetResolutionCache := _assetResolutionCache g; _config := _config g;
     _filesByDirNameIndex := _filesByDirNameIndex g; _hasteFS := v;
     _helpers := _helpers g; _moduleCache := _moduleCache g;
     _moduleMap := _moduleMap g; _moduleResolver := _moduleResolver g |}.

Definition set_moduleCache (v : gmap string ModuleCache.Module) (g : DependencyGraph) :=
  {| _assetResolutionCache := _assetResolutionCache g; _config := _config g;
     _filesByDirNameIndex := _filesByDirNameIndex g; _hasteFS := _hasteFS g;
     _helpers := _helpers g; _moduleCache := v;
     _moduleMap := _moduleMap g; _moduleResolver := _moduleResolver g |}.

Definition set_moduleMap (v : ModuleMap) (g : DependencyGraph) :=
  {| _assetResolutionCache := _assetResolutionCache g; _config := _config g;
     _filesByDirNameIndex := _filesByDirNameIndex g; _hasteFS := _hasteFS g;
     _helpers := _helpers g; _moduleCache := _moduleCache g;
     _moduleMap := v; _moduleResolver := _moduleResolver g |}.

Definition set_moduleResolver (v : ModuleResolver.t) (g : DependencyGraph) :=
  {| _assetResolutionCache := _assetResolutionCache g; _config := _config g;
     _filesByDirNameIndex := _filesByDirNameIndex g; _hasteFS := _hasteFS g;
     _helpers := _helpers g; _moduleCache := _moduleCache g;
     _moduleMap := _moduleMap g; _moduleResolver := v |}.

(** ** Statements: a state monad over [World] with completions

    A statement ends normally, leaves the enclosing function through
    [return], or throws; what follows a [return] or a [throw] in a block is
    skipped.  [OutOfFuel] is the completion of a loop cut off by its
    bound. *)

Inductive Completion (R A : Type) :=
| Normal (a : A)
| Return (r : R)
| Throw (e : JsError)
| OutOfFuel.

Arguments Normal {R A} a.
Arguments Return {R A} r.
Arguments Throw {R A} e.
Arguments OutOfFuel {R A}.

Definition JS (R A : Type) : Type := World → Completion R A * World.

Definition ret {R A} (a : A) : JS R A := λ w, (Normal a, w).

Definition bind {R A B} (m : JS R A) (k : A → JS R B) : JS R B :=
  λ w, match m w with
       | (Normal a, w') => k a w'
       | (Return r, w') => (Return r, w')
       | (Throw e, w') => (Throw e, w')
       | (OutOfFuel, w') => (OutOfFuel, w')
       end.

Definition return_ {R} (r : R) : JS R unit := λ w, (Return r, w).
Definition throw {R A} (e : JsError) : JS R A := λ w, (Throw e, w).
Definition gets {R A} (f : World → A) : JS R A := λ w, (Normal (f w), w).
Definition modify {R} (f : World → World) : JS R unit := λ w, (Normal tt, f w).
Definition assign {R} (f : DependencyGraph → DependencyGraph) : JS R unit :=
  modify (λ w, with_this (f (this w)) w).

(** A library call that returns or throws. *)
Definition try_ {R A} (x : JsError + A) : JS R A :=
  match x with
  | inl e => throw e
  | inr a => ret a
  end.

(** A call into [fs] on the file [file]. *)
Definition sys {A} (file : string) (x : string + A) : JsError + A :=
  match x with
  | inl code => inl (SystemError code file)
  | inr a => inr a
  end.

(** A call [f(...)] used as an expression: the callee's [return] is the
    value of the call, its absence is [undefined]. *)
Definition call {R A} (body : JS A unit) : JS R (option A) :=
  λ w, match body w with
       | (Normal _, w') => (Normal None, w')
       | (Return a, w') => (Normal (Some a), w')
       | (Throw e, w') => (Throw e, w')
       | (OutOfFuel, w') => (OutOfFuel, w')
       end.

Declare Scope js_scope.
Delimit Scope js_scope with js.
Notation "x <- m ;; k" := (bind m (λ x, k))
  (at level 100, m at next level, right associativity) : js_scope.
Notation "m ;; k" := (bind m (λ _, k))
  (at level 100, right associativity) : js_scope.
Notation "'when_' c 'then_' m" := (if c then m else ret tt)
  (at level 10, c at level 98, m at level 200) : js_scope.
Local Open Scope js_scope.

(** [do { s = body(s) } while (cond(s))] over the loop-carried locals [s]. *)
Fixpoint do_while {R T} (fuel : nat) (body : T → JS R T) (cond : T → bool) (s : T)
    : JS R T :=
  match fuel with
  | 0 => λ w, (OutOfFuel, w)
  | S fuel' =>
      s' <- body s;;
      if cond s' then do_while fuel' body cond s' else ret s'
  end.

(** [xs.forEach(f)]. *)
Fixpoint forEach {R A} (xs : list A) (f : A → JS R unit) : JS R unit :=
  match xs with
  | [] => ret tt
  | x :: xs' => f x;; forEach xs' f
  end.

(** [this.emit(name)]: the listeners run now, in the current state. *)
Definition emit {R} (name : string) : JS R unit :=
  modify (λ w, {| disk := disk w; cwd := cwd w; this := this w;
                  emitted := emitted w ++ [(name, this w)] |}).

(** ** The methods of [DependencyGraph] *)

(** A [?string] known to be truthy, read as the [string] Flow refines it to. *)
Definition refined (v : option string) : string := default "" v.

(** The payload of a ['change'] event of jest-haste-map. *)
Record ChangeEvent := {
  eventsQueue : list (ModuleCache.EventType * string);
  hasteFS : HasteFS.t;
  moduleMap : ModuleMap;
}.

(** The constructor.  The asset cache is created empty around its ranking
    of candidates and the module cache empty around [_getClosestPackage];
    [this._haste.on('change', ...)] is what makes [_onHasteChange] run once
    per notification of the watcher. *)
Definition constructor (config : ConfigT) (initialHasteFS : HasteFS.t)
    (initialModuleMap : ModuleMap)
    (rank : gset string → string → option string → option (list string))
    : DependencyGraph :=
  {| _config := config;
     _filesByDirNameIndex := FilesByDirNameIndex.new (HasteFS.getAllFiles initialHasteFS);
     _assetResolutionCache := AssetResolutionCache.new rank;
     _hasteFS := initialHasteFS;
     _moduleMap := initialModuleMap;
     _helpers :=
       {| DependencyGraphHelpers._assetExts := assetExts (resolver config);
          DependencyGraphHelpers._providesModuleNodeModules :=
            providesModuleNodeModules (resolver config) |};
     _moduleCache := ∅;
     _moduleResolver :=
       {| ModuleResolver.extraNodeModules := extraNodeModules (resolver config);
          ModuleResolver.mainFields := resolverMainFields (resolver config);
          ModuleResolver.moduleMap := initialModuleMap;
          ModuleResolver.preferNativePlatform := true;
          ModuleResolver.sourceExts := sourceExts (resolver config) |} |}.

(** [_getClosestPackage(filePath)]; [fuel] bounds the rounds of the loop. *)
Definition _getClosestPackage (fuel : nat) (filePath : string) : JS (option string) unit :=
  let parsedPath := path.parse filePath in
  let root := path.root parsedPath in
  do_while fuel
    (λ dir,
       let candidate := path.join dir "package.json" in
       found <- gets (λ w, HasteFS.exists_ (_hasteFS (this w)) candidate);;
       (when_ found then_ return_ (Some candidate));;
       ret (path.dirname dir))
    (λ dir, negb (String.eqb dir ".") && negb (String.eqb dir root))
    (path.dir parsedPath);;
  return_ None.

(** [_createModuleResolver()]: a new options object around the current
    module map. *)
Definition _createModuleResolver : JS unit unit :=
  assign (λ g,
    set_moduleResolver
      {| ModuleResolver.extraNodeModules := extraNodeModules (resolver (_config g));
         ModuleResolver.mainFields := resolverMainFields (resolver (_config g));
         ModuleResolver.moduleMap := _moduleMap g;
         ModuleResolver.preferNativePlatform := true;
         ModuleResolver.sourceExts := sourceExts (resolver (_config g)) |} g).

(** [_onHasteChange({eventsQueue, hasteFS, moduleMap})], the handler of the
    watcher's ['change'] notifications. *)
Definition _onHasteChange (event : ChangeEvent) : JS unit unit :=
  assign (set_hasteFS (hasteFS event));;
  assign (set_filesByDirNameIndex
            (FilesByDirNameIndex.new (HasteFS.getAllFiles (hasteFS event))));;
  assign (λ g, set_assetResolutionCache
                 (AssetResolutionCache.clear (_assetResolutionCache g)) g);;
  assign (set_moduleMap (moduleMap event));;
  forEach (eventsQueue event) (λ '(type, filePath),
    assign (λ g, set_moduleCache
                   (ModuleCache.processFileChange type filePath (_moduleCache g)) g));;
  call _createModuleResolver;;
  emit "change".

(** [getSha1(filename)], with the [throw] that follows its [return]. *)
Definition getSha1 (filename : string) : JS string unit :=
  resolvedPath <- (d <- gets disk;; try_ (sys filename (fs.realpathSync d filename)));;
  sha1 <- gets (λ w, HasteFS.getSha1 (_hasteFS (this w)) resolvedPath);;
  (when_ negb (truthy sha1) then_
     content <- (d <- gets disk;; try_ (sys resolvedPath (fs.readFileSync d resolvedPath)));;
     let otherSha1 := crypto.sha1_hex content in
     return_ otherSha1;;
     throw (ReferenceError ("SHA-1 for file " +:+ filename +:+ " is not computed")));;
  return_ (refined sha1).

(** [_doesFileExist(filePath)] *)
Definition _doesFileExist {R} (filePath : string) : JS R bool :=
  gets (λ w, HasteFS.exists_ (_hasteFS (this w)) filePath).

(** [getHasteName(filePath)] *)
Definition getHasteName (filePath : string) : JS string unit :=
  hasteName <- gets (λ w, HasteFS.getModuleName (_hasteFS (this w)) filePath);;
  (when_ truthy hasteName then_ return_ (refined hasteName));;
  w <- gets id;;
  return_ (path.relative (cwd w) (projectRoot (_config (this w))) filePath).

(** The closures of [_createModuleResolver] and the methods of the module
    cache and the asset cache, as they act on the graph when a resolution calls
    them. *)

Definition dirExists {R} (filePath : string) : JS R bool :=
  d <- gets disk;;
  ret (match fs.lstatSync_isDirectory d filePath with
       | inr isDirectory => isDirectory
       | inl _ => false
       end).

Definition moduleCache_getModule {R} (filePath : string) : JS R ModuleCache.Module :=
  w <- gets id;;
  let '(m, cache) := ModuleCache.getModule (disk w) filePath (_moduleCache (this w)) in
  assign (set_moduleCache cache);;
  try_ m.

Definition resolveAsset {R} (dirPath assetName : string) (platform : option string)
    : JS R (option (list string)) :=
  g <- gets this;;
  let '(found, cache) :=
    AssetResolutionCache.resolve
      (FilesByDirNameIndex.getAllFiles (_filesByDirNameIndex g))
      dirPath assetName platform (_assetResolutionCache g) in
  assign (set_assetResolutionCache cache);;
  ret found.

(** Modelled from the spec: running a resolution against the graph.  Each
    request is answered by the closure or method the graph handed over for
    it. *)
Fixpoint perform {R} (failure : JsError) (r : Resolution) : JS R string :=
  match r with
  | Resolved file => ret file
  | NotFound => throw failure
  | DoesFileExist filePath k => b <- _doesFileExist filePath;; perform failure (k b)
  | DirExists filePath k => b <- dirExists filePath;; perform failure (k b)
  | GetModule filePath k => m <- moduleCache_getModule filePath;; perform failure (k m)
  | GetClosestPackage filePath k =>
      p <- call (_getClosestPackage (S (String.length filePath)) filePath);;
      perform failure (k (mjoin p))
  | ResolveAsset dirPath assetName platform k =>
      found <- resolveAsset dirPath assetName platform;;
      perform failure (k found)
  end.

(** [resolveDependency(from, to, platform)]: the request is built, the origin
    module fetched from the module cache, and the resolution run. *)
Definition resolveDependency (algorithm : ResolutionRequest.Algorithm)
    (from to : string) (platform : option string) : JS string unit :=
  g <- gets this;;
  let req :=
    {| ResolutionRequest.moduleResolver := _moduleResolver g;
       ResolutionRequest.entryPath := from;
       ResolutionRequest.helpers := _helpers g;
       ResolutionRequest.platform := if truthy platform then platform else None |} in
  fromModule <- moduleCache_getModule from;;
  resolved <- perform (ModuleNotFoundError from to (ResolutionRequest.platform req))
                (algorithm req fromModule to);;
  return_ resolved.

(** ** The effects of the handler and of a resolution, spelled out *)

(** The graph left by the handler. *)
Definition changed (event : ChangeEvent) (g : DependencyGraph) : DependencyGraph :=
  {| _assetResolutionCache := AssetResolutionCache.clear (_assetResolutionCache g);
     _config := _config g;
     _filesByDirNameIndex := FilesByDirNameIndex.new (HasteFS.getAllFiles (hasteFS event));
     _hasteFS := hasteFS event;
     _helpers := _helpers g;
     _moduleCache :=
       foldl (λ cache event, ModuleCache.processFileChange event.1 event.2 cache)
             (_moduleCache g) (eventsQueue event);
     _moduleMap := moduleMap event;
     _moduleResolver :=
       {| ModuleResolver.extraNodeModules := extraNodeModules (resolver (_config g));
          ModuleResolver.mainFields := resolverMainFields (resolver (_config g));
          ModuleResolver.moduleMap := moduleMap event;
          ModuleResolver.preferNativePlatform := true;
          ModuleResolver.sourceExts := sourceExts (resolver (_config g)) |} |}.

(** What a resolution may do to the process: nothing but fill the two
    caches.  Every field assigned by the constructor or the change handler
    keeps its value, and every cache entry stays as it was. *)
Definition only_fills_caches (w w' : World) : Prop :=
  disk w' = disk w ∧ cwd w' = cwd w ∧ emitted w' = emitted w ∧
  _config (this w') = _config (this w) ∧
  _filesByDirNameIndex (this w') = _filesByDirNameIndex (this w) ∧
  _hasteFS (this w') = _hasteFS (this w) ∧
  _helpers (this w') = _helpers (this w) ∧
  _moduleMap (this w') = _moduleMap (this w) ∧
  _moduleResolver (this w') = _moduleResolver (this w) ∧
  AssetResolutionCache.rank (_assetResolutionCache (this w')) =
    AssetResolutionCache.rank (_assetResolutionCache (this w)) ∧
  _moduleCache (this w) ⊆ _moduleCache (this w') ∧
  AssetResolutionCache.entries (_assetResolutionCache (this w)) ⊆
    AssetResolutionCache.entries (_assetResolutionCache (this w')).

(** ** The graph over its lifetime

    What happens to a graph once constructed: notifications of the watcher
    and calls of its public methods, in any order. *)

Inductive Call :=
| Change (event : ChangeEvent)
| ResolveDependency (algorithm : ResolutionRequest.Algorithm) (from to : string)
    (platform : option string)
| GetSha1 (filename : string)
| GetHasteName (filePath : string).

Definition after (c : Call) (w : World) : World :=
  match c with
  | Change event => (_onHasteChange event w).2
  | ResolveDependency algorithm from to platform =>
      (resolveDependency algorithm from to platform w).2
  | GetSha1 filename => (getSha1 filename w).2
  | GetHasteName filePath => (getHasteName filePath w).2
  end.

(** The file index of a graph is the one of its registry snapshot. *)
Definition fresh_index (g : DependencyGraph) : Prop :=
  _filesByDirNameIndex g = FilesByDirNameIndex.new (HasteFS.getAllFiles (_hasteFS g)).

(** ** The upward walk of [_getClosestPackage], as a list

    The directories the walk probes: the directory of the file, then each
    parent in turn for as long as the parent is neither [.] nor the root of
    the path.  A parent is at most as long as the path, which bounds the
    walk. *)

Fixpoint upward (n : nat) (root dir : string) : list string :=
  match n with
  | 0 => []
  | S n' =>
      let parent := path.dirname dir in
      if String.eqb parent "." || String.eqb parent root then []
      else parent :: upward n' root parent
  end.

Definition ancestor_chain (filePath : string) : list string :=
  let parsedPath := path.parse filePath in
  path.dir parsedPath
    :: upward (String.length filePath) (path.root parsedPath) (path.dir parsedPath).

(** A path is absolute when it starts with the separator. *)
Definition is_absolute (s : string) : bool := char_is (chars s) 0 path.SLASH.

(** The manifest path probed in a directory. *)
Definition manifest_in (dir : string) : string := path.join dir "package.json".

(** A path segment that is a plain name: not empty, not [.] nor [..], and
    free of separators. *)
Definition plain (seg : list ascii) : Prop :=
  seg ≠ [] ∧ seg ≠ [path.DOT] ∧ seg ≠ [path.DOT; path.DOT] ∧ path.SLASH ∉ seg.

Global Instance plain_dec (seg : list ascii) : Decision (plain seg).
Proof. unfold plain. apply _. Defined.

Definition is_plain (seg : string) : bool := bool_decide (plain (chars seg)).

(** The absolute path [/s1/s2/.../sn] and the relative path [s1/s2/.../sn]. *)
Definition abs_chars (segs : list (list ascii)) : list ascii :=
  concat ((λ seg, path.SLASH :: seg) <$> segs).

Definition abs_path (segs : list string) : string :=
  unchars (abs_chars (chars <$> segs)).

(** The ancestors [/s1/.../sk], [/s1/.../s(k-1)], ..., [/s1] of a path of
    plain segments. *)
Fixpoint ancestors (segs : list string) (k : nat) : list string :=
  match k with
  | 0 => []
  | S k' => abs_path (take k segs) :: ancestors segs k'
  end.

Definition rel_path (segs : list string) : string :=
  unchars (path.join_slash (chars <$> segs)).

(** ** A small project, for examples *)

Module example.

Definition sha_abc : string := "a9993e364706816aba3e25717850c26c9cd0d89d".

(** [/proj/src/a.js] is tracked with its hash and the haste name [a];
    [/proj/src/b.js] is tracked without either; [/proj/link.js] is a
    symbolic link to [a.js]. *)
Definition files : gmap string string :=
  {[ "/proj/package.json" := "{}";
     "/proj/src/a.js" := "abc";
     "/proj/src/b.js" := "abc";
     "/package.json" := "{}";
     "/foo.js" := "" ]}.

Definition links : gmap string string :=
  {[ "/proj/link.js" := "/proj/src/a.js"; "/proj/link-b.js" := "/proj/src/b.js" ]}.

Definition table : gmap string HasteFS.FileMetaData :=
  {[ "/proj/package.json" := {| HasteFS.ID := ""; HasteFS.SHA1 := None |};
     "/proj/src/a.js" := {| HasteFS.ID := "a"; HasteFS.SHA1 := Some sha_abc |};
     "/proj/src/b.js" := {| HasteFS.ID := ""; HasteFS.SHA1 := None |} ]}.

Definition config : ConfigT :=
  {| projectRoot := "/proj";
     resolver := {| assetExts := ["png"]; extraNodeModules := ∅; platforms := ["ios"];
                    providesModuleNodeModules := []; resolverMainFields := ["main"];
                    sourceExts := ["js"] |} |}.

Definition graph : DependencyGraph :=
  constructor config (HasteFS.of_files table) ∅ (λ _ _ _, None).

Definition world : World :=
  {| disk := fs.of_files files links; cwd := "/proj"; this := graph; emitted := [] |}.

(** A resolution that looks for one sibling file. *)
Definition algorithm : ResolutionRequest.Algorithm :=
  λ req fromModule to,
    DoesFileExist "/proj/src/b.js"
      (λ found, if found then Resolved "/proj/src/b.js" else NotFound).

(** A registry that answers the empty name for every path. *)
Definition nameless : HasteFS.t :=
  {| HasteFS.exists_ := HasteFS.exists_ (HasteFS.of_files table);
     HasteFS.getAllFiles := HasteFS.getAllFiles (HasteFS.of_files table);
     HasteFS.getModuleName := λ _, Some "";
     HasteFS.getSha1 := HasteFS.getSha1 (HasteFS.of_files table) |}.

Definition nameless_world : World :=
  {| disk := fs.of_files files links; cwd := "/";
     this := constructor config nameless ∅ (λ _ _ _, None);
     emitted := [] |}.

(** A registry whose watched folder is the filesystem root. *)
Definition root_table : gmap string HasteFS.FileMetaData :=
  {[ "/package.json" := {| HasteFS.ID := ""; HasteFS.SHA1 := None |};
     "/foo.js" := {| HasteFS.ID := ""; HasteFS.SHA1 := None |};
     "/a/b.js" := {| HasteFS.ID := ""; HasteFS.SHA1 := None |} ]}.

Definition root_world : World :=
  {| disk := fs.of_files files links; cwd := "/";
     this := constructor config (HasteFS.of_files root_table) ∅ (λ _ _ _, None);
     emitted := [] |}.

End example.

(** ** Runs of calls *)

Definition run (calls : list Call) (w : World) : World :=
  foldl (λ w c, after c w) w calls.

Definition is_change (c : Call) : bool :=
  match c with
  | Change _ => true
  | _ => false
  end.

(** The snapshot and the module map in force after some calls: those of the
    last notification, and the given ones when there was none. *)
Fixpoint latest (calls : list Call) (current : HasteFS.t * ModuleMap)
    : HasteFS.t * ModuleMap :=
  match calls with
  | [] => current
  | Change event :: calls' => latest calls' (hasteFS event, moduleMap event)
  | _ :: calls' => latest calls' current
  end.

(** The options [_createModuleResolver] builds for a graph, and the helpers
    the constructor builds for a configuration. *)
Definition resolver_for (g : DependencyGraph) : ModuleResolver.t :=
  {| ModuleResolver.extraNodeModules := extraNodeModules (resolver (_config g));
     ModuleResolver.mainFields := resolverMainFields (resolver (_config g));
     ModuleResolver.moduleMap := _moduleMap g;
     ModuleResolver.preferNativePlatform := true;
     ModuleResolver.sourceExts := sourceExts (resolver (_config g)) |}.

Definition helpers_for (config : ConfigT) : DependencyGraphHelpers.t :=
  {| DependencyGraphHelpers._assetExts := assetExts (resolver config);
     DependencyGraphHelpers._providesModuleNodeModules :=
       providesModuleNodeModules (resolver config) |}.

(** Two lists of segments that part ways at once: one of them is empty or
    their first segments differ. *)
Definition diverge (up down : list string) : Prop :=
  match up, down with
  | x :: _, y :: _ => x ≠ y
  | _, _ => True
  end.

(** The ancestors [s1/.../sk], ..., [s1] of a relative path of plain
    segments. *)
Fixpoint rel_ancestors (segs : list string) (k : nat) : list string :=
  match k with
  | 0 => []
  | S k' => rel_path (take k segs) :: rel_ancestors segs k'
  end.


(** The manifests [s1/.../sk/package.json], ..., [s1/package.json] of the
    ancestors of a relative path of plain segments. *)
Fixpoint rel_manifests (segs : list string) (k : nat) : list string :=
  match k with
  | 0 => []
  | S k' => rel_path (take k segs ++ ["package.json"]) :: rel_manifests segs k'
  end.

(** A project with a file that is not UTF-8: [/proj/blob.bin] holds the
    single byte [FF], and the registry has no hash for it. *)
Module binary_example.

Definition blob : string := String (ascii_of_nat 255) "".

Definition files : gmap string string := {[ "/proj/blob.bin" := blob ]}.

Definition table : gmap string HasteFS.FileMetaData :=
  {[ "/proj/blob.bin" := {| HasteFS.ID := ""; HasteFS.SHA1 := None |} ]}.

Definition world : World :=
  {| disk := fs.of_files files ∅; cwd := "/proj";
     this := constructor example.config (HasteFS.of_files table) ∅ (λ _ _ _, None);
     emitted := [] |}.

End binary_example.

(** The manifests [/s1/.../sk/package.json], ..., [/s1/package.json] of the
    ancestors of an absolute path of plain segments. *)
Fixpoint abs_manifests (segs : list string) (k : nat) : list string :=
  match k with
  | 0 => []
  | S k' => abs_path (take k segs ++ ["package.json"]) :: abs_manifests segs k'
  end.

(** * Properties *)

(** ** Strings *)

Lemma chars_unchars (l : list ascii) : chars (unchars l) = l.
Proof. apply list_ascii_of_string_of_list_ascii. Qed.

Lemma unchars_chars (s : string) : unchars (chars s) = s.
Proof. apply string_of_list_ascii_of_string. Qed.

Lemma length_chars (s : string) : length (chars s) = String.length s.
Proof. induction s as [|c s IH]; simpl; [done | by rewrite IH]. Qed.

Lemma truthy_Some (s : string) : truthy (Some s) = true ↔ s ≠ "".
Proof.
  simpl. destruct (String.eqb_spec s ""); simpl; split; try done.
Qed.

Lemma truthy_false (v : option string) : truthy v = false ↔ v = None ∨ v = Some "".
Proof.
  destruct v as [s|]; simpl; [|by split; auto].
  destruct (String.eqb_spec s "") as [->|Hne]; simpl.
  - split; auto.
  - split; [done|]. intros [?|[=]]; done.
Qed.

(** ** The Node functions on inputs with documented results *)

Example dirname_examples :
  path.dirname "/a/b/c.js" = "/a/b" ∧ path.dirname "/a" = "/" ∧ path.dirname "a" = "." ∧
  path.dirname "" = "." ∧ path.dirname "/a/b/" = "/a" ∧ path.dirname "//a" = "//" ∧
  path.dirname "/" = "/".
Proof. by vm_compute. Qed.

Example parse_examples :
  path.parse "/home/user/dir/file.txt" = {| path.root := "/"; path.dir := "/home/user/dir" |} ∧
  path.parse "/foo.js" = {| path.root := "/"; path.dir := "/" |} ∧
  path.parse "foo.js" = {| path.root := ""; path.dir := "" |} ∧
  path.parse "a/b/foo.js" = {| path.root := ""; path.dir := "a/b" |}.
Proof. by vm_compute. Qed.

Example join_examples :
  path.join "/a" "package.json" = "/a/package.json" ∧
  path.join "/" "package.json" = "/package.json" ∧
  path.join "" "package.json" = "package.json" ∧
  path.join "/a/.." "package.json" = "/package.json" ∧
  path.join ".." "package.json" = "../package.json" ∧
  path.join "/foo/bar//baz/asdf" ".." = "/foo/bar/baz".
Proof. by vm_compute. Qed.

Example relative_examples :
  path.relative "/" "/data/orandea/test/aaa" "/data/orandea/impl/bbb" = "../../impl/bbb" ∧
  path.relative "/" "/proj" "/proj/src/a.js" = "src/a.js" ∧
  path.relative "/home" "proj" "/home/proj/a.js" = "a.js".
Proof. by vm_compute. Qed.

Example basename_examples :
  path.basename "/foo/bar/baz/asdf/quux.html" = "quux.html" ∧
  path.basename "/a/b/" = "b" ∧ path.basename "/" = "".
Proof. by vm_compute. Qed.

Example sha1_examples :
  crypto.sha1_hex "abc" = "a9993e364706816aba3e25717850c26c9cd0d89d" ∧
  crypto.sha1_hex "" = "da39a3ee5e6b4b0d3255bfef95601890afd80709" ∧
  crypto.sha1_hex "abcdbcdecdefdefgefghfghighijhijkijkljklmklmnlmnomnopnopq"
    = "84983e441c3bd26ebaae4aa1f95129e5e54670f1".
Proof. by vm_compute. Qed.

(** ** UTF-8 *)

Section utf8_facts.

Local Open Scope Z_scope.

Lemma in_range_iff (lo hi byte : Z) :
  utf8.in_range lo hi byte = true ↔ lo ≤ byte ≤ hi.
Proof. unfold utf8.in_range. rewrite andb_true_iff, !Z.leb_le. done. Qed.

Lemma in_range_false (lo hi byte : Z) :
  utf8.in_range lo hi byte = false ↔ byte < lo ∨ hi < byte.
Proof. unfold utf8.in_range. rewrite andb_false_iff, !Z.leb_gt. done. Qed.

Lemma land_low (byte : Z) (n : Z) : 0 ≤ n → Z.land byte (Z.ones n) = byte mod 2 ^ n.
Proof. apply Z.land_ones. Qed.

Lemma lor_shiftl_low (a c : Z) :
  0 ≤ c < 64 → Z.lor (Z.shiftl a 6) c = a * 64 + c.
Proof.
  intros Hc. rewrite Z.shiftl_mul_pow2 by lia. change (2 ^ 6) with 64.
  assert (Z.land (a * 64) c = 0) as Hdisjoint.
  { apply Z.bits_inj'. intros n Hn. rewrite Z.land_spec, Z.bits_0.
    destruct (Z.lt_ge_cases n 6) as [Hlow|Hhigh].
    - change 64 with (2 ^ 6). rewrite Z.mul_pow2_bits_low by lia. done.
    - rewrite (Z.bits_above_log2 c n); [by rewrite andb_false_r | lia |].
      destruct (Z.eq_dec c 0) as [->|Hne]; [simpl; lia|].
      assert (Z.log2 c < 6); [|lia]. apply Z.log2_lt_pow2; lia. }
  rewrite <- Z.lxor_lor by done. by rewrite <- Z.add_nocarry_lxor.
Qed.

Lemma land_mod (byte : Z) :
  Z.land byte 0x3F = byte mod 64 ∧ Z.land byte 0x1F = byte mod 32 ∧
  Z.land byte 0xF = byte mod 16 ∧ Z.land byte 0x7 = byte mod 8.
Proof.
  change 0x3F with (Z.ones 6). change 0x1F with (Z.ones 5).
  change 0xF with (Z.ones 4). change 0x7 with (Z.ones 3).
  by rewrite !Z.land_ones by lia.
Qed.

(** The two bit operations of the decoder and of the encoder, as
    arithmetic. *)
Lemma shift_in (cp byte : Z) :
  Z.lor (Z.shiftl cp 6) (Z.land byte 0x3F) = cp * 64 + byte mod 64.
Proof.
  destruct (land_mod byte) as [-> _]. apply lor_shiftl_low.
  apply Z.mod_pos_bound. lia.
Qed.

Lemma shift_out (cp : Z) (k : nat) :
  Z.lor 0x80 (Z.land (Z.shiftr cp (6 * Z.of_nat k)) 0x3F) =
  128 + (cp / 64 ^ Z.of_nat k) mod 64.
Proof.
  change 0x80 with (Z.shiftl 2 6). rewrite shift_in, Z.shiftr_div_pow2 by lia.
  rewrite Z.pow_mul_r by lia. done.
Qed.

Lemma encode_cons (cp : Z) (cps : list Z) :
  utf8.encode (cp :: cps) = utf8.encode_code_point cp ++ utf8.encode cps.
Proof. done. Qed.

Lemma encode_1 (b0 : Z) :
  0 ≤ b0 ≤ 0x7F → utf8.encode_code_point b0 = [b0].
Proof.
  intros Hb0. unfold utf8.encode_code_point.
  by rewrite (proj2 (in_range_iff 0 0x7F b0)).
Qed.

Lemma encode_2 (b0 b1 : Z) :
  0xC2 ≤ b0 ≤ 0xDF → 0x80 ≤ b1 ≤ 0xBF →
  utf8.encode_code_point (b0 mod 32 * 64 + b1 mod 64) = [b0; b1].
Proof.
  intros Hb0 Hb1. unfold utf8.encode_code_point.
  rewrite (proj2 (in_range_false 0 0x7F _)) by (Z.div_mod_to_equations; lia).
  rewrite (proj2 (in_range_iff 0x80 0x7FF _)) by (Z.div_mod_to_equations; lia).
  cbn [utf8.trail]. rewrite !shift_out, Z.shiftr_div_pow2 by lia.
  change (6 * Z.of_nat 1) with 6. change (Z.of_nat 0) with 0.
  repeat f_equal; Z.div_mod_to_equations; lia.
Qed.

Lemma encode_3 (b0 b1 b2 : Z) :
  0xE0 ≤ b0 ≤ 0xEF → 0x80 ≤ b1 ≤ 0xBF → 0x80 ≤ b2 ≤ 0xBF →
  (b0 = 0xE0 → 0xA0 ≤ b1) →
  utf8.encode_code_point ((b0 mod 16 * 64 + b1 mod 64) * 64 + b2 mod 64) = [b0; b1; b2].
Proof.
  intros Hb0 Hb1 Hb2 Hlong. unfold utf8.encode_code_point.
  rewrite (proj2 (in_range_false 0 0x7F _)) by (Z.div_mod_to_equations; lia).
  rewrite (proj2 (in_range_false 0x80 0x7FF _)) by (Z.div_mod_to_equations; lia).
  rewrite (proj2 (in_range_iff 0x800 0xFFFF _)) by (Z.div_mod_to_equations; lia).
  cbn [utf8.trail]. rewrite !shift_out, Z.shiftr_div_pow2 by lia.
  change (6 * Z.of_nat 2) with 12. change (Z.of_nat 1) with 1. change (Z.of_nat 0) with 0.
  repeat f_equal; Z.div_mod_to_equations; lia.
Qed.

Lemma encode_4 (b0 b1 b2 b3 : Z) :
  0xF0 ≤ b0 ≤ 0xF4 → 0x80 ≤ b1 ≤ 0xBF → 0x80 ≤ b2 ≤ 0xBF → 0x80 ≤ b3 ≤ 0xBF →
  (b0 = 0xF0 → 0x90 ≤ b1) →
  utf8.encode_code_point
    (((b0 mod 8 * 64 + b1 mod 64) * 64 + b2 mod 64) * 64 + b3 mod 64) = [b0; b1; b2; b3].
Proof.
  intros Hb0 Hb1 Hb2 Hb3 Hlong. unfold utf8.encode_code_point.
  rewrite (proj2 (in_range_false 0 0x7F _)) by (Z.div_mod_to_equations; lia).
  rewrite (proj2 (in_range_false 0x80 0x7FF _)) by (Z.div_mod_to_equations; lia).
  rewrite (proj2 (in_range_false 0x800 0xFFFF _)) by (Z.div_mod_to_equations; lia).
  cbn [utf8.trail]. rewrite !shift_out, Z.shiftr_div_pow2 by lia.
  change (6 * Z.of_nat 3) with 18. change (Z.of_nat 2) with 2.
  change (Z.of_nat 1) with 1. change (Z.of_nat 0) with 0.
  repeat f_equal; Z.div_mod_to_equations; lia.
Qed.

(** A byte in the range the open sequence asks for: the last one completes
    the code point, another one is awaited otherwise. *)
Lemma handler_continues (d : utf8.Decoder) (byte : Z) :
  utf8.bytes_needed d ≠ 0 →
  utf8.in_range (utf8.lower_boundary d) (utf8.upper_boundary d) byte = true →
  utf8.handler d byte =
    let cp := utf8.code_point d * 64 + byte mod 64 in
    if utf8.bytes_seen d + 1 =? utf8.bytes_needed d then ([cp], utf8.initial)
    else ([], {| utf8.code_point := cp; utf8.bytes_seen := utf8.bytes_seen d + 1;
                 utf8.bytes_needed := utf8.bytes_needed d;
                 utf8.lower_boundary := 0x80; utf8.upper_boundary := 0xBF |}).
Proof.
  intros Hneeded%Z.eqb_neq Hrange. unfold utf8.handler.
  by rewrite Hneeded, Hrange, shift_in.
Qed.

Lemma run_cons (d : utf8.Decoder) (byte : Z) (rest : list Z) :
  utf8.run d (byte :: rest) =
    (utf8.handler d byte).1 ++ utf8.run (utf8.handler d byte).2 rest.
Proof. cbn [utf8.run]. by destruct (utf8.handler d byte). Qed.

Lemma second_byte_range (b0 b1 special_low special_high low high : Z) :
  special_low ≠ special_high →
  (if b0 =? special_low then utf8.in_range low 0xBF b1
   else if b0 =? special_high then utf8.in_range 0x80 high b1
   else utf8.continuation b1) = true →
  0x80 ≤ low → high ≤ 0xBF →
  utf8.in_range (if b0 =? special_low then low else 0x80)
                (if b0 =? special_high then high else 0xBF) b1 = true ∧
  0x80 ≤ b1 ≤ 0xBF ∧ (b0 = special_low → low ≤ b1).
Proof.
  intros Hspecial Hb1 Hlow Hhigh. unfold utf8.continuation in Hb1.
  destruct (Z.eqb_spec b0 special_low) as [->|Hne].
  - rewrite (proj2 (Z.eqb_neq special_low special_high)) by done.
    apply in_range_iff in Hb1. rewrite in_range_iff. lia.
  - destruct (Z.eqb_spec b0 special_high) as [->|Hne'];
      apply in_range_iff in Hb1; rewrite in_range_iff; lia.
Qed.

(** Decoding well-formed bytes and encoding the code points again gives the
    bytes back. *)
Lemma encode_decode (bytes : list Z) :
  utf8.well_formed bytes = true → utf8.encode (utf8.decode bytes) = bytes.
Proof.
  unfold utf8.decode.
  assert (∀ n bytes, (length bytes ≤ n)%nat → utf8.well_formed bytes = true →
            utf8.encode (utf8.run utf8.initial bytes) = bytes) as Hall;
    [|by apply (Hall (length bytes))].
  clear bytes. induction n as [|n IH]; intros [|b0 rest] Hlen Hwf; try done.
  { simpl in Hlen. lia. }
  cbn [utf8.well_formed] in Hwf. cbn [length] in Hlen.
  rewrite run_cons. change (utf8.handler utf8.initial b0) with (utf8.lead b0).
  unfold utf8.lead.
  destruct (utf8.in_range 0 0x7F b0) eqn:H1.
  { cbn [fst snd app]. rewrite encode_cons, encode_1 by (by apply in_range_iff).
    cbn [app]. f_equal. apply IH; [lia | done]. }
  destruct (utf8.in_range 0xC2 0xDF b0) eqn:H2.
  { destruct rest as [|b1 rest]; [done|]. apply andb_true_iff in Hwf as [Hb1 Hwf].
    cbn [fst snd app length] in *. rewrite run_cons, handler_continues by done.
    cbn [utf8.code_point utf8.bytes_seen utf8.bytes_needed]. change (0 + 1 =? 1) with true.
    cbv zeta iota. cbn [fst snd app]. destruct (land_mod b0) as (_ & -> & _).
    apply in_range_iff in H2, Hb1.
    rewrite encode_cons, encode_2 by done. cbn [app]. do 2 f_equal. apply IH; [lia | done]. }
  destruct (utf8.in_range 0xE0 0xEF b0) eqn:H3.
  { destruct rest as [|b1 [|b2 rest]]; try done.
    apply andb_true_iff in Hwf as [[Hb1 Hb2]%andb_true_iff Hwf].
    apply second_byte_range in Hb1 as (Hb1 & Hb1' & Hlong); [|done|lia|lia].
    cbn [fst snd app length] in *. rewrite run_cons, handler_continues by done.
    cbn [utf8.code_point utf8.bytes_seen utf8.bytes_needed]. change (0 + 1 =? 2) with false.
    cbv zeta iota. cbn [fst snd app]. rewrite run_cons, handler_continues by done.
    cbn [utf8.code_point utf8.bytes_seen utf8.bytes_needed]. change (0 + 1 + 1 =? 2) with true.
    cbv zeta iota. cbn [fst snd app]. destruct (land_mod b0) as (_ & _ & -> & _).
    apply in_range_iff in H3, Hb2.
    rewrite encode_cons, encode_3 by done. cbn [app]. do 3 f_equal. apply IH; [lia | done]. }
  destruct (utf8.in_range 0xF0 0xF4 b0) eqn:H4; [|done].
  destruct rest as [|b1 [|b2 [|b3 rest]]]; try done.
  apply andb_true_iff in Hwf as [[[Hb1 Hb2]%andb_true_iff Hb3]%andb_true_iff Hwf].
  apply second_byte_range in Hb1 as (Hb1 & Hb1' & Hlong); [|done|lia|lia].
  cbn [fst snd app length] in *. rewrite run_cons, handler_continues by done.
  cbn [utf8.code_point utf8.bytes_seen utf8.bytes_needed]. change (0 + 1 =? 3) with false.
  cbv zeta iota. cbn [fst snd app]. rewrite run_cons, handler_continues by done.
  cbn [utf8.code_point utf8.bytes_seen utf8.bytes_needed]. change (0 + 1 + 1 =? 3) with false.
  cbv zeta iota. cbn [fst snd app]. rewrite run_cons, handler_continues by done.
  cbn [utf8.code_point utf8.bytes_seen utf8.bytes_needed].
  change (0 + 1 + 1 + 1 =? 3) with true.
  cbv zeta iota. cbn [fst snd app]. destruct (land_mod b0) as (_ & _ & _ & ->).
  apply in_range_iff in H4, Hb2, Hb3.
  rewrite encode_cons, encode_4 by done. cbn [app]. do 4 f_equal. apply IH; [lia | done].
Qed.

Lemma of_byte_of (c : ascii) : utf8.of_byte (utf8.byte_of c) = c.
Proof. unfold utf8.of_byte, utf8.byte_of. by rewrite N2Z.id, ascii_N_embedding. Qed.

(** Text that is well-formed UTF-8 reads as itself. *)
Lemma toString_well_formed (buffer : list ascii) :
  utf8.well_formed (utf8.byte_of <$> buffer) = true →
  utf8.toString buffer = unchars buffer.
Proof.
  intros Hwf. unfold utf8.toString. rewrite encode_decode by done.
  rewrite <- list_fmap_compose. f_equal. rewrite <- (list_fmap_id buffer) at 2.
  apply list_fmap_ext. intros _ c _. apply of_byte_of.
Qed.

End utf8_facts.

(** ** [getSha1] *)

Ltac run := unfold bind, gets, try_, sys, ret, return_, throw; simpl.

Lemma getSha1_recorded (w : World) (filename resolvedPath h : string) :
  fs.realpathSync (disk w) filename = inr resolvedPath →
  HasteFS.getSha1 (_hasteFS (this w)) resolvedPath = Some h →
  h ≠ "" →
  getSha1 filename w = (Return h, w).
Proof.
  intros Hreal Hsha Hh. unfold getSha1. run. rewrite Hreal. simpl.
  rewrite Hsha. apply truthy_Some in Hh. simpl in *. by rewrite Hh.
Qed.

Lemma getSha1_unrecorded (w : World) (filename resolvedPath : string) :
  fs.realpathSync (disk w) filename = inr resolvedPath →
  truthy (HasteFS.getSha1 (_hasteFS (this w)) resolvedPath) = false →
  getSha1 filename w =
    match fs.readFileSync (disk w) resolvedPath with
    | inr content => (Return (crypto.sha1_hex content), w)
    | inl code => (Throw (SystemError code resolvedPath), w)
    end.
Proof.
  intros Hreal Hsha. unfold getSha1. run. rewrite Hreal. simpl.
  rewrite Hsha. simpl. by destruct (fs.readFileSync _ _).
Qed.

Lemma getSha1_unresolved (w : World) (filename code : string) :
  fs.realpathSync (disk w) filename = inl code →
  getSha1 filename w = (Throw (SystemError code filename), w).
Proof. intros Hreal. unfold getSha1. run. by rewrite Hreal. Qed.

(** Whatever the input, [getSha1] ends by returning a string or by throwing
    the error of a failed [fs] call, in an unchanged world. *)
Lemma getSha1_cases (w : World) (filename : string) :
  (∃ h, getSha1 filename w = (Return h, w)) ∨
  (∃ code file, getSha1 filename w = (Throw (SystemError code file), w)).
Proof.
  destruct (fs.realpathSync (disk w) filename) as [code|resolvedPath] eqn:Hreal.
  { right. eauto using getSha1_unresolved. }
  destruct (truthy (HasteFS.getSha1 (_hasteFS (this w)) resolvedPath)) eqn:Hsha.
  - destruct (HasteFS.getSha1 _ _) as [h|] eqn:Hh; [|done].
    apply truthy_Some in Hsha. left. eauto using getSha1_recorded.
  - rewrite (getSha1_unrecorded _ _ _ Hreal Hsha).
    destruct (fs.readFileSync _ _); eauto.
Qed.

Lemma getSha1_frame (w : World) (filename : string) : (getSha1 filename w).2 = w.
Proof. by destruct (getSha1_cases w filename) as [[? ->]|(?&?&->)]. Qed.

Lemma getSha1_never_ReferenceError (w : World) (filename message : string) :
  (getSha1 filename w).1 ≠ Throw (ReferenceError message).
Proof. by destruct (getSha1_cases w filename) as [[? ->]|(?&?&->)]. Qed.

(** The claim C1 as stated fails: [getSha1] hashes the text it reads as
    UTF-8, not the bytes of the file.  For the file holding the byte [FF] it
    returns the SHA-1 of the bytes [EF BF BD], the encoding of U+FFFD, where
    the SHA-1 of the file's byte is [85e5...]. *)
Lemma getSha1_hashes_text_not_bytes :
  fs.readFileSync_raw (disk binary_example.world) "/proj/blob.bin" =
    inr (chars binary_example.blob) ∧
  truthy (HasteFS.getSha1 (_hasteFS (this binary_example.world)) "/proj/blob.bin") = false ∧
  getSha1 "/proj/blob.bin" binary_example.world =
    (Return "9bdb77276c1852e1fb067820472812fcf6084024", binary_example.world) ∧
  crypto.sha1_hex binary_example.blob = "85e53271e14006f0265921d02d4d736cdc580b0b".
Proof. split_and!; vm_compute; reflexivity. Qed.

(** C1, amended: when the real path of [filename] has no recorded hash,
    [getSha1] reads the file as UTF-8 text and returns the SHA-1 of that
    text, that is, of the bytes of the file with every ill-formed sequence
    replaced by U+FFFD; for a file that is well-formed UTF-8 this is the
    SHA-1 of its bytes.  An unreadable file surfaces as the I/O error of the
    read, and the "SHA-1 ... is not computed" [ReferenceError] is never
    thrown: the [throw] after the [return] is dead code. *)
Theorem getSha1_recomputes_hash_of_text (w : World) (filename resolvedPath : string) :
  fs.realpathSync (disk w) filename = inr resolvedPath →
  truthy (HasteFS.getSha1 (_hasteFS (this w)) resolvedPath) = false →
  (∀ buffer, fs.readFileSync_raw (disk w) resolvedPath = inr buffer →
     getSha1 filename w = (Return (crypto.sha1_hex (utf8.toString buffer)), w) ∧
     (utf8.well_formed (utf8.byte_of <$> buffer) = true →
      getSha1 filename w = (Return (crypto.sha1_hex (unchars buffer)), w))) ∧
  (∀ code, fs.readFileSync_raw (disk w) resolvedPath = inl code →
     getSha1 filename w = (Throw (SystemError code resolvedPath), w)) ∧
  (∀ message, (getSha1 filename w).1 ≠ Throw (ReferenceError message)).
Proof.
  intros Hreal Hsha. pose proof (getSha1_unrecorded _ _ _ Hreal Hsha) as Hrun.
  unfold fs.readFileSync in Hrun. split_and!.
  - intros buffer Hread. rewrite Hread in Hrun. split; [done|].
    intros Hwf. by rewrite <- (toString_well_formed buffer Hwf).
  - intros code Hread. by rewrite Hrun, Hread.
  - apply getSha1_never_ReferenceError.
Qed.

Lemma getSha1_recomputes_hash_of_text_witness :
  getSha1 "/proj/link-b.js" example.world =
    (Return "a9993e364706816aba3e25717850c26c9cd0d89d", example.world).
Proof.
  refine (eq_trans
            (proj2 (proj1 (getSha1_recomputes_hash_of_text example.world
                             "/proj/link-b.js" "/proj/src/b.js" _ _) (chars "abc") _) _) _);
    vm_compute; reflexivity.
Defined.

(** C6: when the real path of [filename] has a recorded hash, [getSha1]
    returns exactly that hash; the registry is asked about the path
    [fs.realpathSync] answers, not about [filename] itself. *)
Theorem getSha1_returns_recorded_hash (w : World) (filename resolvedPath h : string) :
  fs.realpathSync (disk w) filename = inr resolvedPath →
  HasteFS.getSha1 (_hasteFS (this w)) resolvedPath = Some h →
  h ≠ "" →
  getSha1 filename w = (Return h, w).
Proof. apply getSha1_recorded. Qed.

Lemma getSha1_returns_recorded_hash_witness :
  getSha1 "/proj/link.js" example.world = (Return example.sha_abc, example.world).
Proof.
  apply (getSha1_returns_recorded_hash example.world "/proj/link.js" "/proj/src/a.js");
    [vm_compute; reflexivity | vm_compute; reflexivity | discriminate].
Defined.

(** What [getSha1] looks at: the real path of [filename], the hash recorded
    for it and, when there is none, the content of the file. *)
Lemma getSha1_reads (w w' : World) (filename : string) :
  fs.realpathSync (disk w') filename = fs.realpathSync (disk w) filename →
  (∀ resolvedPath, fs.realpathSync (disk w) filename = inr resolvedPath →
     HasteFS.getSha1 (_hasteFS (this w')) resolvedPath =
       HasteFS.getSha1 (_hasteFS (this w)) resolvedPath ∧
     fs.readFileSync (disk w') resolvedPath = fs.readFileSync (disk w) resolvedPath) →
  (getSha1 filename w').1 = (getSha1 filename w).1.
Proof.
  intros Hreal Hsame.
  destruct (fs.realpathSync (disk w) filename) as [code|resolvedPath] eqn:Hw.
  { by rewrite (getSha1_unresolved w _ code), (getSha1_unresolved w' _ code). }
  destruct (Hsame resolvedPath eq_refl) as [Hsha Hread].
  destruct (truthy (HasteFS.getSha1 (_hasteFS (this w)) resolvedPath)) eqn:Ht.
  - destruct (HasteFS.getSha1 (_hasteFS (this w)) resolvedPath) as [h|] eqn:Hh; [|done].
    apply truthy_Some in Ht.
    rewrite (getSha1_recorded w _ resolvedPath h) by done.
    by rewrite (getSha1_recorded w' _ resolvedPath h) by (by rewrite ?Hsha).
  - rewrite (getSha1_unrecorded w _ resolvedPath) by done.
    rewrite (getSha1_unrecorded w' _ resolvedPath) by (by rewrite ?Hsha).
    rewrite Hread. by destruct (fs.readFileSync (disk w) resolvedPath).
Qed.

(** C8: a call of [getSha1] changes nothing, and a second call made while
    the registry snapshot and the disk still answer the same for that path
    yields the same outcome as the first; in particular two calls in a row
    do. *)
Theorem getSha1_is_stable (w w' : World) (filename : string) :
  fs.realpathSync (disk w') filename = fs.realpathSync (disk w) filename →
  (∀ resolvedPath, fs.realpathSync (disk w) filename = inr resolvedPath →
     HasteFS.getSha1 (_hasteFS (this w')) resolvedPath =
       HasteFS.getSha1 (_hasteFS (this w)) resolvedPath ∧
     fs.readFileSync (disk w') resolvedPath = fs.readFileSync (disk w) resolvedPath) →
  (getSha1 filename w).2 = w ∧
  (getSha1 filename w').1 = (getSha1 filename w).1 ∧
  getSha1 filename (getSha1 filename w).2 = getSha1 filename w.
Proof.
  intros Hreal Hsame. split_and!.
  - apply getSha1_frame.
  - by apply getSha1_reads.
  - by rewrite getSha1_frame.
Qed.

Lemma getSha1_is_stable_witness :
  (getSha1 "/proj/link-b.js" example.world).2 = example.world ∧
  (getSha1 "/proj/link-b.js"
     (resolveDependency example.algorithm "/proj/src/a.js" "./b" None example.world).2).1 =
    (getSha1 "/proj/link-b.js" example.world).1 ∧
  getSha1 "/proj/link-b.js" (getSha1 "/proj/link-b.js" example.world).2 =
    getSha1 "/proj/link-b.js" example.world.
Proof.
  apply (getSha1_is_stable example.world
           (resolveDependency example.algorithm "/proj/src/a.js" "./b" None
              example.world).2);
    [vm_compute; reflexivity | intros resolvedPath _; split; vm_compute; reflexivity].
Defined.

(** ** [FilesByDirNameIndex] *)

Lemma index_keeps (allFilePaths : list string) (index : gmap string (gset string))
    (dirName baseName : string) :
  baseName ∈ index !!! dirName →
  baseName ∈
    foldl (λ index filePath,
             let dirName := path.dirname filePath in
             <[dirName := {[path.basename filePath]} ∪ index !!! dirName]>
               index)
          index allFilePaths !!! dirName.
Proof.
  revert index. induction allFilePaths as [|filePath paths IH]; intros index Hin; [done|].
  simpl. apply IH. destruct (decide (path.dirname filePath = dirName)) as [->|Hne].
  - rewrite lookup_total_insert_eq. set_solver.
  - by rewrite lookup_total_insert_ne.
Qed.

(** The index built from a list of paths has, under the directory of each
    path, the base name of that path. *)
Lemma index_contains (allFilePaths : list string) (filePath : string) :
  filePath ∈ allFilePaths →
  path.basename filePath ∈
    FilesByDirNameIndex.getAllFiles (FilesByDirNameIndex.new allFilePaths)
      (path.dirname filePath).
Proof.
  unfold FilesByDirNameIndex.getAllFiles, FilesByDirNameIndex.new.
  generalize (∅ : gmap string (gset string)).
  induction allFilePaths as [|p paths IH]; intros index Hin; [by apply elem_of_nil in Hin|].
  apply elem_of_cons in Hin as [->|Hin]; simpl.
  - apply index_keeps. rewrite lookup_total_insert_eq. set_solver.
  - by apply IH.
Qed.

(** ** [_onHasteChange] *)

(** The module cache once every event of a batch has been processed. *)
Lemma forEach_processFileChange (events : list (ModuleCache.EventType * string)) (w : World) :
  forEach (R := unit) events (λ '(type, filePath),
    assign (λ g, set_moduleCache
                   (ModuleCache.processFileChange type filePath (_moduleCache g)) g)) w =
  (Normal tt,
   with_this
     (set_moduleCache
        (foldl (λ cache event, ModuleCache.processFileChange event.1 event.2 cache)
               (_moduleCache (this w)) events)
        (this w)) w).
Proof.
  revert w. induction events as [|[type filePath] events IH]; intros w.
  - by destruct w as [? ? [] ?].
  - simpl. unfold bind at 1. simpl. rewrite IH. by destruct w as [? ? [] ?].
Qed.

Lemma processed_lookup (events : list (ModuleCache.EventType * string))
    (cache : gmap string ModuleCache.Module) (filePath : string) :
  foldl (λ cache event, ModuleCache.processFileChange event.1 event.2 cache) cache events
    !! filePath =
  if decide (filePath ∈ events.*2) then None else cache !! filePath.
Proof.
  revert cache. induction events as [|[type p] events IH]; intros cache.
  - case_decide as Hin; [by apply elem_of_nil in Hin | done].
  - cbn [foldl]. rewrite IH. unfold ModuleCache.processFileChange.
    rewrite fmap_cons. cbn [snd].
    destruct (decide (filePath = p)) as [->|Hne].
    + rewrite lookup_delete_eq.
      rewrite (decide_True (P := p ∈ p :: _)) by (apply elem_of_cons; by left).
      by case_decide.
    + rewrite lookup_delete_ne by done.
      destruct (decide (filePath ∈ events.*2)) as [Hin|Hin].
      * by rewrite decide_True by (apply elem_of_cons; by right).
      * rewrite decide_False; [done|]. by intros [?|?]%elem_of_cons.
Qed.

Lemma processed_kinds (events events' : list (ModuleCache.EventType * string))
    (cache : gmap string ModuleCache.Module) :
  events'.*2 = events.*2 →
  foldl (λ cache event, ModuleCache.processFileChange event.1 event.2 cache) cache events' =
  foldl (λ cache event, ModuleCache.processFileChange event.1 event.2 cache) cache events.
Proof.
  revert events' cache.
  induction events as [|[type p] events IH]; intros [|[type' p'] events'] cache [=]; [done|].
  subst. simpl. by apply IH.
Qed.

Lemma _onHasteChange_runs (event : ChangeEvent) (w : World) :
  _onHasteChange event w =
  (Normal tt,
   {| disk := disk w; cwd := cwd w; this := changed event (this w);
      emitted := emitted w ++ [("change", changed event (this w))] |}).
Proof.
  unfold _onHasteChange.
  unfold bind at 1. simpl. unfold bind at 1. simpl.
  unfold bind at 1. simpl. unfold bind at 1. simpl.
  unfold bind at 1. rewrite forEach_processFileChange.
  by destruct w as [? ? [] ?].
Qed.

(** C3: whatever the batch, the handler leaves the asset resolution cache
    empty, and the module cache loses exactly the entries of the paths named
    by the events of the batch; the kinds of the events play no part, a
    batch naming the same paths with other kinds has the same effect. *)
Theorem change_clears_assets_and_purges_event_paths (event : ChangeEvent) (w : World) :
  AssetResolutionCache.entries
    (_assetResolutionCache (this (_onHasteChange event w).2)) = ∅ ∧
  (∀ filePath,
     _moduleCache (this (_onHasteChange event w).2) !! filePath =
     if decide (filePath ∈ (eventsQueue event).*2) then None
     else _moduleCache (this w) !! filePath) ∧
  (∀ event',
     (eventsQueue event').*2 = (eventsQueue event).*2 →
     hasteFS event' = hasteFS event →
     moduleMap event' = moduleMap event →
     _onHasteChange event' w = _onHasteChange event w).
Proof.
  rewrite _onHasteChange_runs. cbn [snd this changed _assetResolutionCache _moduleCache].
  split_and!.
  - done.
  - intros filePath. apply processed_lookup.
  - intros event' Hpaths HhasteFS HmoduleMap. rewrite !_onHasteChange_runs.
    unfold changed. by rewrite (processed_kinds _ _ _ Hpaths), HhasteFS, HmoduleMap.
Qed.

Lemma change_clears_assets_and_purges_event_paths_witness :
  _onHasteChange
    {| eventsQueue := [(ModuleCache.delete, "/proj/src/a.js")];
       hasteFS := HasteFS.of_files example.table; moduleMap := ∅ |} example.world =
  _onHasteChange
    {| eventsQueue := [(ModuleCache.add, "/proj/src/a.js")];
       hasteFS := HasteFS.of_files example.table; moduleMap := ∅ |} example.world.
Proof.
  apply (proj2 (proj2 (change_clears_assets_and_purges_event_paths
           {| eventsQueue := [(ModuleCache.add, "/proj/src/a.js")];
              hasteFS := HasteFS.of_files example.table; moduleMap := ∅ |}
           example.world)));
    reflexivity.
Defined.

(** C4: the handler emits one event, ['change'], and nothing else; its
    listeners run in the very state the handler leaves behind, that is,
    after the registry snapshot and the module map have been replaced, the
    file index rebuilt from the new snapshot, the asset cache cleared, every
    event of the batch processed by the module cache and the resolver
    rebuilt.  In that state every tracked file is listed under its
    directory, the asset cache is empty, the entries of the paths of the
    batch are gone from the module cache and the resolver holds the new
    module map. *)
Theorem change_emitted_once_after_everything (event : ChangeEvent) (w : World) :
  ∃ g : DependencyGraph,
    _onHasteChange event w =
      (Normal tt,
       {| disk := disk w; cwd := cwd w; this := g;
          emitted := emitted w ++ [("change", g)] |}) ∧
    _hasteFS g = hasteFS event ∧
    _filesByDirNameIndex g = FilesByDirNameIndex.new (HasteFS.getAllFiles (_hasteFS g)) ∧
    _assetResolutionCache g = AssetResolutionCache.clear (_assetResolutionCache (this w)) ∧
    _moduleMap g = moduleMap event ∧
    _moduleCache g =
      foldl (λ cache e, ModuleCache.processFileChange e.1 e.2 cache)
            (_moduleCache (this w)) (eventsQueue event) ∧
    ModuleResolver.moduleMap (_moduleResolver g) = moduleMap event ∧
    (∀ filePath, filePath ∈ HasteFS.getAllFiles (_hasteFS g) →
       path.basename filePath ∈
         FilesByDirNameIndex.getAllFiles (_filesByDirNameIndex g) (path.dirname filePath)) ∧
    AssetResolutionCache.entries (_assetResolutionCache g) = ∅ ∧
    (∀ filePath, filePath ∈ (eventsQueue event).*2 → _moduleCache g !! filePath = None).
Proof.
  exists (changed event (this w)). split; [apply _onHasteChange_runs|].
  split_and!; try done.
  - intros filePath Hin. by apply index_contains.
  - intros filePath Hin. cbn [changed _moduleCache]. rewrite processed_lookup.
    by rewrite decide_True.
Qed.

(** ** [resolveDependency] *)

Lemma only_fills_caches_refl (w : World) : only_fills_caches w w.
Proof. unfold only_fills_caches. by split_and!. Qed.

Lemma only_fills_caches_trans (w1 w2 w3 : World) :
  only_fills_caches w1 w2 → only_fills_caches w2 w3 → only_fills_caches w1 w3.
Proof.
  unfold only_fills_caches.
  intros (?&?&?&?&?&?&?&?&?&?&?&?) (?&?&?&?&?&?&?&?&?&?&?&?).
  split_and!; try congruence; by etrans.
Qed.

Lemma moduleCache_getModule_fills {R} (filePath : string) (w : World) :
  only_fills_caches w (moduleCache_getModule (R := R) filePath w).2.
Proof.
  unfold moduleCache_getModule, bind, gets, ModuleCache.getModule. simpl.
  destruct (_moduleCache (this w) !! filePath) as [m|] eqn:Hm; simpl.
  - destruct w as [? ? [] ?]. apply only_fills_caches_refl.
  - destruct (fs.readFileSync (disk w) filePath); simpl.
    + destruct w as [? ? [] ?]. apply only_fills_caches_refl.
    + destruct w as [? ? [] ?]. unfold only_fills_caches. simpl in *.
      split_and!; try done. by apply insert_subseteq.
Qed.

Lemma resolveAsset_fills {R} (dirPath assetName : string) (platform : option string)
    (w : World) :
  only_fills_caches w (resolveAsset (R := R) dirPath assetName platform w).2.
Proof.
  unfold resolveAsset, bind, gets, AssetResolutionCache.resolve. simpl.
  destruct (AssetResolutionCache.entries _ !! _) as [found|] eqn:Hfound; simpl.
  - destruct w as [? ? [] ?]. apply only_fills_caches_refl.
  - destruct w as [? ? [] ?]. unfold only_fills_caches. simpl in *.
    split_and!; try done. by apply insert_subseteq.
Qed.

Lemma do_while_reads {R T} (fuel : nat) (body : T → JS R T) (cond : T → bool) (s : T)
    (w : World) :
  (∀ s w, (body s w).2 = w) → (do_while fuel body cond s w).2 = w.
Proof.
  intros Hbody. revert s. induction fuel as [|fuel IH]; intros s; [done|].
  simpl. unfold bind. specialize (Hbody s w).
  destruct (body s w) as [[s'| | |] w']; simpl in *; subst; try done.
  destruct (cond s'); [apply IH | done].
Qed.

Lemma _getClosestPackage_reads (fuel : nat) (filePath : string) (w : World) :
  (_getClosestPackage fuel filePath w).2 = w.
Proof.
  unfold _getClosestPackage. unfold bind at 1.
  match goal with |- context [do_while fuel ?b ?c ?s w] =>
    pose proof (do_while_reads fuel b c s w) as Hloop;
    destruct (do_while fuel b c s w) as [[?| | |] w'] end;
    simpl in *; apply Hloop; intros s0 w0; unfold bind, gets; simpl;
    by destruct (HasteFS.exists_ _ _).
Qed.

Lemma perform_fills {R} (failure : JsError) (r : Resolution) (w : World) :
  only_fills_caches w (perform (R := R) failure r w).2.
Proof.
  revert w. induction r as [file| |p k IH|p k IH|p k IH|p k IH|d n pl k IH]; intros w; simpl.
  - apply only_fills_caches_refl.
  - apply only_fills_caches_refl.
  - unfold bind, _doesFileExist, gets. simpl. apply IH.
  - unfold bind, dirExists, gets, ret. simpl. apply IH.
  - unfold bind at 1.
    pose proof (moduleCache_getModule_fills (R := R) p w) as Hget.
    destruct (moduleCache_getModule p w) as [[m| | |] w']; simpl in *; try done.
    eapply only_fills_caches_trans; [done | apply IH].
  - unfold bind at 1, call.
    pose proof (_getClosestPackage_reads (S (String.length p)) p w) as Hget.
    destruct (_getClosestPackage _ p w) as [[?| | |] w']; simpl in *; subst;
      try apply only_fills_caches_refl; apply IH.
  - unfold bind at 1.
    pose proof (resolveAsset_fills (R := R) d n pl w) as Hget.
    destruct (resolveAsset d n pl w) as [[found| | |] w']; simpl in *; try done.
    eapply only_fills_caches_trans; [done | apply IH].
Qed.

Lemma resolveDependency_fills (algorithm : ResolutionRequest.Algorithm)
    (from to : string) (platform : option string) (w : World) :
  only_fills_caches w (resolveDependency algorithm from to platform w).2.
Proof.
  unfold resolveDependency. unfold bind at 1, gets at 1. cbn beta iota.
  unfold bind at 1.
  pose proof (moduleCache_getModule_fills (R := string) from w) as Hget.
  destruct (moduleCache_getModule from w) as [[m| | |] w']; simpl in *; try done.
  unfold bind at 1.
  match goal with |- context [perform ?f ?r w'] =>
    pose proof (perform_fills (R := string) f r w') as Hrun;
    destruct (perform f r w') as [[?| | |] w''] end;
    simpl in *; by eapply only_fills_caches_trans.
Qed.



(** ** [path.dirname] and [path.parse]: how far the walk can go *)

Lemma char_is_true (p : list ascii) (i : nat) (c : ascii) :
  char_is p i c = true ↔ p !! i = Some c.
Proof.
  unfold char_is. destruct (p !! i) as [d|]; [|done].
  destruct (Ascii.eqb_spec d c); naive_solver.
Qed.

Lemma char_is_take (p : list ascii) (e i : nat) (c : ascii) :
  i < e → char_is (take e p) i c = char_is p i c.
Proof. intros Hi. unfold char_is. by rewrite lookup_take_lt. Qed.

Lemma dirname_scan_bounds (p : list ascii) (i : nat) (matchedSlash : bool) (e : nat) :
  path.dirname_scan p i matchedSlash = Some e →
  1 ≤ e ∧ e ≤ i ∧ (matchedSlash = true → e < i).
Proof.
  revert matchedSlash. induction i as [|i IH]; intros matchedSlash; simpl; [done|].
  destruct (char_is p (S i) path.SLASH).
  - destruct matchedSlash.
    + intros [? [? ?]]%IH. lia.
    + intros [= <-]. split_and!; [lia | lia | done].
  - intros [? [? _]]%IH. lia.
Qed.

(** The parent of a directory is [.], [/], or a strictly shorter path that
    is absolute exactly when the directory is. *)
Lemma dirname_shrinks (dir : string) :
  path.dirname dir = "." ∨
  (path.dirname dir = "/" ∧ is_absolute dir = true) ∨
  (String.length (path.dirname dir) < String.length dir ∧
   is_absolute (path.dirname dir) = is_absolute dir).
Proof.
  unfold path.dirname, path.dirname_chars, is_absolute.
  rewrite <- !length_chars, !chars_unchars.
  destruct (chars dir) as [|c p]; [by left|]. cbv beta iota.
  generalize (c :: p). clear c p. intros p.
  destruct (path.dirname_scan p (length p - 1) true) as [e|] eqn:Hscan.
  - apply dirname_scan_bounds in Hscan as (He1 & He2 & He3). specialize (He3 eq_refl).
    destruct (char_is p 0 path.SLASH && (e =? 1)) eqn:Hroot.
    + apply andb_true_iff in Hroot as [Habs ->%Nat.eqb_eq].
      right; right. simpl. split; [lia | done].
    + right; right. unfold slice. rewrite Nat.sub_0_r, drop_0.
      rewrite length_take. split; [lia|]. apply char_is_take. lia.
  - destruct (char_is p 0 path.SLASH); [right; left | left]; done.
Qed.

Lemma parse_scan_bounds (p : list ascii) (start k : nat) (matchedSlash : bool) :
  path.parse_scan p start k matchedSlash = 0 ∨
  (start < path.parse_scan p start k matchedSlash ∧
   path.parse_scan p start k matchedSlash ≤ k).
Proof.
  revert matchedSlash. induction k as [|i IH]; intros matchedSlash; simpl; [by left|].
  destruct (Nat.ltb_spec i start); [by left|].
  destruct (char_is p i path.SLASH).
  - destruct matchedSlash; [|right; lia].
    destruct (IH true) as [->|?]; [by left | right; lia].
  - destruct (IH false) as [->|?]; [by left | right; lia].
Qed.

(** The root of a parsed path is [/] for an absolute path and empty
    otherwise; its directory is no longer than the path and absolute exactly
    when the path is. *)
Lemma parse_shape (filePath : string) :
  path.root (path.parse filePath) = (if is_absolute filePath then "/" else "") ∧
  String.length (path.dir (path.parse filePath)) ≤ String.length filePath ∧
  is_absolute (path.dir (path.parse filePath)) = is_absolute filePath.
Proof.
  unfold path.parse, is_absolute. rewrite <- !length_chars.
  destruct (chars filePath) as [|c p]; [done|]. cbv beta iota zeta.
  generalize (c :: p) (eq_refl : length (c :: p) = S (length p)).
  clear c. intros q Hq. cbn [path.root path.dir].
  destruct (char_is q 0 path.SLASH) eqn:Habs.
  - destruct (parse_scan_bounds q 1 (length q) true) as [->|[Hlo Hhi]]; simpl.
    + split_and!; [done | lia | done].
    + destruct (Nat.ltb_spec 0 (path.parse_scan q 1 (length q) true)); [|lia].
      rewrite chars_unchars. unfold slice. rewrite Nat.sub_0_r, drop_0, length_take.
      split_and!; [done | lia |]. rewrite char_is_take by lia. done.
  - destruct (parse_scan_bounds q 0 (length q) true) as [->|[Hlo Hhi]]; simpl.
    + split_and!; [done | lia | done].
    + destruct (Nat.ltb_spec 0 (path.parse_scan q 0 (length q) true)); [|lia].
      rewrite chars_unchars. unfold slice. rewrite Nat.sub_0_r, drop_0, length_take.
      split_and!; [done | lia |].
      destruct (decide (path.parse_scan q 0 (length q) true - 1 = 0)) as [->|].
      * by rewrite take_0.
      * rewrite char_is_take by lia. done.
Qed.

(** ** [_getClosestPackage] *)

Lemma do_while_step {R T} (fuel : nat) (body : T → JS R T) (cond : T → bool) (s : T)
    (w : World) :
  do_while (S fuel) body cond s w =
  match body s w with
  | (Normal s', w') => if cond s' then do_while fuel body cond s' w' else (Normal s', w')
  | (Return r, w') => (Return r, w')
  | (Throw e, w') => (Throw e, w')
  | (OutOfFuel, w') => (OutOfFuel, w')
  end.
Proof.
  simpl. unfold bind. destruct (body s w) as [[s'| | |] w']; try done.
  by destruct (cond s').
Qed.

(** The loop, started in any directory whose absoluteness matches the root,
    ends within [String.length dir + 1] rounds, in the same world, and
    returns the first manifest of the walk that the registry knows. *)
Lemma walk_runs (n fuel : nat) (root dir : string) (w : World) :
  root = (if is_absolute dir then "/" else "") →
  String.length dir ≤ n →
  n < fuel →
  (do_while fuel
     (λ dir,
        let candidate := path.join dir "package.json" in
        found <- gets (λ w, HasteFS.exists_ (_hasteFS (this w)) candidate);;
        (when_ found then_ return_ (Some candidate));;
        ret (path.dirname dir))
     (λ dir, negb (String.eqb dir ".") && negb (String.eqb dir root))
     dir;;
   return_ None) w =
  (Return (List.find (HasteFS.exists_ (_hasteFS (this w)))
             (manifest_in <$> dir :: upward n root dir)), w).
Proof.
  match goal with |- context [do_while _ ?b ?c _] => set (body := b); set (cond := c) end.
  assert (∀ d w, body d w =
    if HasteFS.exists_ (_hasteFS (this w)) (manifest_in d)
    then (Return (Some (manifest_in d)), w) else (Normal (path.dirname d), w)) as Hbody.
  { intros d w0. unfold body, bind, gets, manifest_in.
    by destruct (HasteFS.exists_ _ _). }
  clearbody body.
  revert fuel dir. induction n as [|n IH]; intros [|fuel] dir Hroot Hlen Hfuel; try lia.
  - destruct dir; [|simpl in Hlen; lia].
    unfold bind. rewrite do_while_step, Hbody. cbn [upward fmap list_fmap List.find].
    destruct (HasteFS.exists_ _ _); [done|].
    change (path.dirname "") with ".". unfold cond. by rewrite String.eqb_refl.
  - unfold bind. rewrite do_while_step, Hbody. cbn [upward fmap list_fmap List.find].
    destruct (HasteFS.exists_ (_hasteFS (this w)) (manifest_in dir)); [done|].
    unfold cond at 1. rewrite <- negb_orb.
    destruct (String.eqb (path.dirname dir) "." || String.eqb (path.dirname dir) root)
      eqn:Hstop; cbn [negb]; [done|].
    apply orb_false_iff in Hstop as [Hdot%String.eqb_neq Hrt%String.eqb_neq].
    destruct (dirname_shrinks dir) as [?|[[Hparent Habs]|[Hshort Habs]]]; [done| |].
    { rewrite Habs in Hroot. congruence. }
    specialize (IH fuel (path.dirname dir)). unfold bind in IH.
    rewrite IH by (rewrite ?Habs; first [done | lia]).
    done.
Qed.

Lemma _getClosestPackage_runs (fuel : nat) (filePath : string) (w : World) :
  String.length filePath < fuel →
  _getClosestPackage fuel filePath w =
    (Return (List.find (HasteFS.exists_ (_hasteFS (this w)))
               (manifest_in <$> ancestor_chain filePath)), w).
Proof.
  intros Hfuel. destruct (parse_shape filePath) as (Hroot & Hlen & Habs).
  unfold _getClosestPackage, ancestor_chain. cbv zeta.
  apply walk_runs; [by rewrite Habs | done | done].
Qed.

Lemma find_first {A} (f : A → bool) (l : list A) (x : A) :
  List.find f l = Some x →
  ∃ before after, l = before ++ x :: after ∧ f x = true ∧
    Forall (λ y, f y = false) before.
Proof.
  induction l as [|y l IH]; [done|]. simpl. destruct (f y) eqn:Hy.
  - intros [= ->]. by exists [], l.
  - intros (before & after & -> & Hx & Hbefore)%IH.
    exists (y :: before), after. split_and!; [done | done | by constructor].
Qed.

Lemma find_nowhere {A} (f : A → bool) (l : list A) :
  List.find f l = None → Forall (λ y, f y = false) l.
Proof.
  induction l as [|y l IH]; [done|]. simpl. destruct (f y) eqn:Hy; [done|].
  intros Hl. constructor; [done | by apply IH].
Qed.

Lemma find_filter {A} (f g : A → bool) (l : list A) :
  (∀ x, f x = true → g x = true) → List.find f (List.filter g l) = List.find f l.
Proof.
  intros Hfg. induction l as [|x l IH]; [done|]. simpl.
  destruct (f x) eqn:Hf.
  - rewrite (Hfg x Hf). simpl. by rewrite Hf.
  - destruct (g x); simpl; by rewrite ?Hf.
Qed.

Example getClosestPackage_of_b :
  _getClosestPackage 15 "/proj/src/b.js" example.world =
    (Return (Some "/proj/package.json"), example.world) ∧
  ancestor_chain "/proj/src/b.js" = ["/proj/src"; "/proj"].
Proof. split; vm_compute; reflexivity. Qed.

(** ** Paths made of plain segments *)

Lemma not_slash (seg : list ascii) (i : nat) :
  path.SLASH ∉ seg → char_is seg i path.SLASH = false.
Proof.
  intros Hseg. unfold char_is. destruct (seg !! i) as [x|] eqn:Hx; [|done].
  destruct (Ascii.eqb_spec x path.SLASH) as [->|]; [|done].
  by apply list_elem_of_lookup_2 in Hx.
Qed.

Lemma split_slash_plain (seg : list ascii) :
  path.SLASH ∉ seg → path.split_slash seg = [seg].
Proof.
  induction seg as [|c seg IH]; intros Hseg; [done|]. simpl.
  apply not_elem_of_cons in Hseg as [Hc Hseg].
  destruct (Ascii.eqb_spec c path.SLASH); [done|]. by rewrite IH.
Qed.

Lemma split_slash_app (seg rest : list ascii) :
  path.SLASH ∉ seg →
  path.split_slash (seg ++ path.SLASH :: rest) = seg :: path.split_slash rest.
Proof.
  induction seg as [|c seg IH]; intros Hseg; [done|]. simpl.
  apply not_elem_of_cons in Hseg as [Hc Hseg].
  destruct (Ascii.eqb_spec c path.SLASH); [done|]. by rewrite IH.
Qed.

Lemma split_slash_segments (seg : list ascii) (segs : list (list ascii)) :
  path.SLASH ∉ seg → Forall plain segs →
  path.split_slash (seg ++ abs_chars segs) = seg :: segs.
Proof.
  intros Hseg Hsegs. revert seg Hseg.
  induction Hsegs as [|seg' segs Hseg' _ IH]; intros seg Hseg.
  - unfold abs_chars. simpl. rewrite app_nil_r. by apply split_slash_plain.
  - unfold abs_chars. rewrite fmap_cons. simpl. fold (abs_chars segs).
    rewrite split_slash_app by done. rewrite IH; [done | apply Hseg'].
Qed.

Lemma split_slash_abs (segs : list (list ascii)) :
  Forall plain segs → path.split_slash (abs_chars segs) = [] :: segs.
Proof.
  intros Hsegs. apply (split_slash_segments [] segs); [apply not_elem_of_nil | done].
Qed.

Lemma normalize_plain (allowAboveRoot : bool) (stack segs : list (list ascii)) :
  Forall plain segs →
  foldl (path.normalize_step allowAboveRoot) stack segs = reverse segs ++ stack.
Proof.
  intros Hsegs. revert stack.
  induction Hsegs as [|seg segs (Hne & Hdot & Hdots & _) _ IH]; intros stack; [done|].
  simpl. rewrite IH. unfold path.normalize_step.
  rewrite decide_False by (by intros [?|?]). rewrite decide_False by done.
  by rewrite reverse_cons, <- app_assoc.
Qed.

Lemma join_slash_abs (segs : list (list ascii)) :
  segs ≠ [] → path.SLASH :: path.join_slash segs = abs_chars segs.
Proof.
  induction segs as [|seg segs IH]; [done|]. intros _.
  unfold abs_chars. rewrite fmap_cons. simpl. fold (abs_chars segs).
  destruct segs as [|seg' segs]; [by rewrite app_nil_r|].
  by rewrite <- IH.
Qed.

Lemma abs_chars_cons (seg : list ascii) (segs : list (list ascii)) :
  abs_chars (seg :: segs) = path.SLASH :: seg ++ abs_chars segs.
Proof. done. Qed.

Lemma abs_chars_snoc (segs : list (list ascii)) (seg : list ascii) :
  abs_chars (segs ++ [seg]) = abs_chars segs ++ path.SLASH :: seg.
Proof. unfold abs_chars. rewrite fmap_app, concat_app. simpl. by rewrite app_nil_r. Qed.

Lemma abs_chars_length (segs : list (list ascii)) :
  Forall plain segs → segs ≠ [] → 2 ≤ length (abs_chars segs).
Proof.
  intros [|seg segs' (Hne & _) _]; [done|]. intros _.
  unfold abs_chars. rewrite fmap_cons. simpl. destruct seg; [done|]. simpl. lia.
Qed.

Lemma abs_chars_absolute (segs : list (list ascii)) (rest : list ascii) :
  char_is (abs_chars segs ++ path.SLASH :: rest) 0 path.SLASH = true.
Proof. by destruct segs. Qed.

Lemma last_char_is (p : list ascii) (c : ascii) :
  char_is p (length p - 1) c = true ↔ last p = Some c.
Proof. rewrite char_is_true, last_lookup. by replace (pred (length p)) with (length p - 1) by lia. Qed.

Lemma no_trailing_separator (pre seg : list ascii) :
  seg ≠ [] → path.SLASH ∉ seg →
  char_is (pre ++ path.SLASH :: seg) (length (pre ++ path.SLASH :: seg) - 1) path.SLASH
    = false.
Proof.
  intros Hne Hseg. apply not_true_is_false. rewrite last_char_is.
  rewrite last_app, last_cons. destruct (last seg) as [x|] eqn:Hlast.
  - intros [= ->]. by apply last_Some_elem_of in Hlast.
  - by apply last_None in Hlast.
Qed.

Lemma normalize_chars_absolute (p : list ascii) :
  char_is p 0 path.SLASH = true →
  char_is p (length p - 1) path.SLASH = false →
  path.normalizeString p false ≠ [] →
  path.normalize_chars p = path.SLASH :: path.normalizeString p false.
Proof.
  intros Habs Htrail Hne. unfold path.normalize_chars.
  destruct p as [|c p]; [done|]. cbv zeta. rewrite Habs, Htrail. cbn [negb].
  by destruct (path.normalizeString (c :: p) false).
Qed.

(** An absolute path of plain segments is its own normal form. *)
Lemma normalize_chars_abs (segs : list (list ascii)) :
  Forall plain segs → segs ≠ [] →
  path.normalize_chars (abs_chars segs) = abs_chars segs.
Proof.
  intros Hsegs Hne.
  assert (path.normalizeString (abs_chars segs) false = path.join_slash segs) as Hnorm.
  { unfold path.normalizeString. rewrite split_slash_abs by done.
    simpl. unfold path.normalize_step at 2. rewrite decide_True by (by left).
    by rewrite normalize_plain, app_nil_r, reverse_involutive. }
  pose proof (join_slash_abs segs Hne) as Hjoin.
  pose proof (abs_chars_length _ Hsegs Hne) as Hlen.
  rewrite normalize_chars_absolute; rewrite ?Hnorm; [done| | |].
  - destruct (exists_last Hne) as (segs' & seg & ->).
    rewrite abs_chars_snoc. apply abs_chars_absolute.
  - destruct (exists_last Hne) as (segs' & seg & ->).
    apply Forall_app in Hsegs as [_ Hseg]. rewrite Forall_singleton in Hseg.
    destruct Hseg as (Hseg_ne & _ & _ & Hseg_slash).
    rewrite abs_chars_snoc. by apply no_trailing_separator.
  - intros Hq. rewrite Hq in Hjoin. rewrite <- Hjoin in Hlen. simpl in Hlen. lia.
Qed.

Lemma chars_abs_path (segs : list string) : chars (abs_path segs) = abs_chars (chars <$> segs).
Proof. apply chars_unchars. Qed.

Lemma Forall_plain (segs : list string) :
  forallb is_plain segs = true → Forall plain (chars <$> segs).
Proof.
  intros Hsegs. apply Forall_fmap, Forall_forall. intros seg Hin.
  rewrite forallb_forall in Hsegs. apply list_elem_of_In in Hin.
  specialize (Hsegs seg Hin). unfold is_plain in Hsegs. by apply bool_decide_eq_true in Hsegs.
Qed.

Lemma plain_manifest : plain (chars "package.json").
Proof. apply (bool_decide_unpack _). by vm_compute. Qed.

Lemma join_nonempty (a b : string) :
  chars a ≠ [] → chars b ≠ [] →
  path.join a b = unchars (path.normalize_chars (chars a ++ path.SLASH :: chars b)).
Proof. unfold path.join. by destruct (chars a), (chars b). Qed.

(** The manifest probed in [/s1/.../sn] is [/s1/.../sn/package.json]. *)
Lemma manifest_in_abs (segs : list string) :
  forallb is_plain segs = true → segs ≠ [] →
  manifest_in (abs_path segs) = abs_path (segs ++ ["package.json"]).
Proof.
  intros Hsegs%Forall_plain Hne. unfold manifest_in.
  assert (chars <$> segs ≠ []) as Hne' by (by destruct segs).
  pose proof (abs_chars_length _ Hsegs Hne') as Hlen.
  rewrite join_nonempty; rewrite ?chars_abs_path;
    [|intros Hnil; rewrite Hnil in Hlen; simpl in Hlen; lia|done].
  rewrite <- abs_chars_snoc. rewrite normalize_chars_abs.
  - unfold abs_path. by rewrite fmap_app.
  - apply Forall_app. split; [done|]. rewrite Forall_singleton. apply plain_manifest.
  - by destruct (chars <$> segs).
Qed.

(** The backwards scans skip the last segment and stop at the separator
    before it. *)
Lemma dirname_scan_last_segment (pre seg : list ascii) (k : nat) (matchedSlash : bool) :
  path.SLASH ∉ seg → 1 ≤ k →
  path.dirname_scan (pre ++ path.SLASH :: seg) (length pre + k) matchedSlash =
  path.dirname_scan (pre ++ path.SLASH :: seg) (length pre) false.
Proof.
  intros Hseg. revert matchedSlash. induction k as [|k IH]; intros matchedSlash Hk; [lia|].
  rewrite Nat.add_succ_r. simpl.
  assert (char_is (pre ++ path.SLASH :: seg) (S (length pre + k)) path.SLASH = false) as ->.
  { unfold char_is. rewrite <- Nat.add_succ_r, lookup_app_r by lia.
    replace (length pre + S k - length pre) with (S k) by lia. simpl.
    by apply not_slash. }
  destruct k as [|k]; [by rewrite Nat.add_0_r|]. apply IH. lia.
Qed.

Lemma parse_scan_last_segment (pre seg : list ascii) (k : nat) (matchedSlash : bool) :
  path.SLASH ∉ seg → 1 ≤ k →
  path.parse_scan (pre ++ path.SLASH :: seg) 1 (S (length pre) + k) matchedSlash =
  path.parse_scan (pre ++ path.SLASH :: seg) 1 (S (length pre)) false.
Proof.
  intros Hseg. revert matchedSlash. induction k as [|k IH]; intros matchedSlash Hk; [lia|].
  rewrite Nat.add_succ_r. cbn [path.parse_scan].
  destruct (Nat.ltb_spec (S (length pre) + k) 1); [lia|].
  assert (char_is (pre ++ path.SLASH :: seg) (S (length pre) + k) path.SLASH = false) as ->.
  { unfold char_is. rewrite lookup_app_r by lia.
    replace (S (length pre) + k - length pre) with (S k) by lia. simpl.
    by apply not_slash. }
  destruct k as [|k]; [by rewrite Nat.add_0_r|]. apply IH. lia.
Qed.

Lemma separator_at (pre seg : list ascii) :
  char_is (pre ++ path.SLASH :: seg) (length pre) path.SLASH = true.
Proof. apply char_is_true. by rewrite list_lookup_middle. Qed.

(** The parent of [/s1/.../sn/s] is [/s1/.../sn], or [/] when [n = 0]. *)
Lemma dirname_abs (segs : list string) (seg : string) :
  forallb is_plain (segs ++ [seg]) = true →
  path.dirname (abs_path (segs ++ [seg])) = if segs is [] then "/" else abs_path segs.
Proof.
  intros Hplain%Forall_plain. rewrite fmap_app in Hplain.
  apply Forall_app in Hplain as [Hsegs Hseg]. cbn [fmap list_fmap] in Hseg.
  rewrite Forall_singleton in Hseg. destruct Hseg as (Hne & _ & _ & Hslash).
  unfold path.dirname, path.dirname_chars. rewrite chars_abs_path, fmap_app.
  cbn [fmap list_fmap]. rewrite abs_chars_snoc.
  set (pre := abs_chars (chars <$> segs)).
  destruct (pre ++ path.SLASH :: chars seg) as [|c p] eqn:Hp; [by destruct pre|].
  rewrite <- Hp. clear c p Hp.
  replace (length (pre ++ path.SLASH :: chars seg) - 1) with (length pre + length (chars seg))
    by (rewrite length_app; simpl; lia).
  rewrite dirname_scan_last_segment
    by (done || (destruct (chars seg); [done | simpl; lia])).
  destruct segs as [|seg0 segs].
  - by rewrite separator_at.
  - assert (2 ≤ length pre) as Hlen by (by apply abs_chars_length).
    destruct (length pre) as [|n] eqn:Hn; [lia|]. cbn [path.dirname_scan].
    rewrite <- Hn, separator_at.
    replace (length pre =? 1) with false by (symmetry; apply Nat.eqb_neq; lia).
    rewrite andb_false_r. unfold slice.
    by rewrite Nat.sub_0_r, drop_0, take_app_length.
Qed.

(** The directory of the file [/s1/.../sn/name] is [/s1/.../sn], or [/]
    when [n = 0], and its root is [/]. *)
Lemma parse_abs (segs : list string) (name : string) :
  forallb is_plain (segs ++ [name]) = true →
  path.parse (abs_path (segs ++ [name])) =
    {| path.root := "/"; path.dir := if segs is [] then "/" else abs_path segs |}.
Proof.
  intros Hplain%Forall_plain. rewrite fmap_app in Hplain.
  apply Forall_app in Hplain as [Hsegs Hseg]. cbn [fmap list_fmap] in Hseg.
  rewrite Forall_singleton in Hseg. destruct Hseg as (Hne & _ & _ & Hslash).
  unfold path.parse. rewrite chars_abs_path, fmap_app.
  cbn [fmap list_fmap]. rewrite abs_chars_snoc.
  set (pre := abs_chars (chars <$> segs)).
  destruct (pre ++ path.SLASH :: chars name) as [|c p] eqn:Hp; [by destruct pre|].
  rewrite <- Hp. clear c p Hp. cbv zeta.
  assert (char_is (pre ++ path.SLASH :: chars name) 0 path.SLASH = true) as ->
    by apply abs_chars_absolute.
  replace (length (pre ++ path.SLASH :: chars name))
    with (S (length pre) + length (chars name)) by (rewrite length_app; simpl; lia).
  rewrite parse_scan_last_segment
    by (done || (destruct (chars name); [done | simpl; lia])).
  cbn [path.parse_scan]. destruct segs as [|seg0 segs].
  - done.
  - assert (2 ≤ length pre) as Hlen by (by apply abs_chars_length).
    destruct (Nat.ltb_spec (length pre) 1); [lia|]. rewrite separator_at.
    replace (0 <? length pre + 1) with true by (symmetry; apply Nat.ltb_lt; lia).
    unfold slice. replace (length pre + 1 - 1 - 0) with (length pre) by lia.
    by rewrite drop_0, take_app_length.
Qed.

Lemma abs_path_length (segs : list string) :
  forallb is_plain segs = true → 2 * length segs ≤ String.length (abs_path segs).
Proof.
  intros Hplain%Forall_plain. rewrite <- length_chars, chars_abs_path.
  induction segs as [|seg segs IH]; [simpl; lia|].
  rewrite fmap_cons in Hplain. apply Forall_cons in Hplain as [(Hne & _) Hsegs].
  rewrite fmap_cons, abs_chars_cons. cbn [length]. rewrite length_app.
  specialize (IH Hsegs).
  destruct (chars seg); [done|]. cbn [length]. lia.
Qed.

Lemma is_plain_app (segs segs' : list string) :
  forallb is_plain (segs ++ segs') = true ↔
  forallb is_plain segs = true ∧ forallb is_plain segs' = true.
Proof. by rewrite forallb_app, andb_true_iff. Qed.

Lemma is_plain_take (segs : list string) (k : nat) :
  forallb is_plain segs = true → forallb is_plain (take k segs) = true.
Proof.
  intros Hplain. rewrite <- (take_drop k segs) in Hplain.
  by apply is_plain_app in Hplain as [? _].
Qed.

(** The parents of [/s1/.../s(k+1)], up to the root excluded. *)
Lemma upward_abs (segs : list string) (k n : nat) :
  forallb is_plain segs = true → S k ≤ length segs → k ≤ n →
  upward n "/" (abs_path (take (S k) segs)) = ancestors segs k.
Proof.
  intros Hplain. revert n. induction k as [|k IH]; intros n Hk Hn.
  - destruct segs as [|seg segs]; [simpl in Hk; lia|].
    destruct n as [|n]; [done|]. cbn [upward ancestors].
    change (take 1 (seg :: segs)) with ([] ++ [seg]).
    rewrite (dirname_abs [] seg); [done|]. simpl in *. by apply andb_true_iff in Hplain as [-> _].
  - destruct n as [|n]; [lia|]. cbn [upward ancestors].
    destruct (lookup_lt_is_Some_2 segs (S k)) as [seg Hseg]; [lia|].
    rewrite (take_S_r _ _ _ Hseg).
    rewrite dirname_abs by (rewrite <- (take_S_r _ _ _ Hseg); by apply is_plain_take).
    assert (take (S k) segs ≠ []) as Hne.
    { intros Htake. apply (f_equal length) in Htake. rewrite length_take in Htake.
      cbn [length] in Htake. lia. }
    replace (if take (S k) segs is [] then "/" else abs_path (take (S k) segs))
      with (abs_path (take (S k) segs)) by (by destruct (take (S k) segs)).
    pose proof (abs_path_length (take (S k) segs) (is_plain_take _ _ Hplain)) as Hlen.
    rewrite length_take in Hlen.
    destruct (String.eqb_spec (abs_path (take (S k) segs)) ".") as [Heq|_].
    { rewrite Heq in Hlen. change (String.length ".") with 1 in Hlen. lia. }
    destruct (String.eqb_spec (abs_path (take (S k) segs)) "/") as [Heq|_].
    { rewrite Heq in Hlen. change (String.length "/") with 1 in Hlen. lia. }
    cbn [orb]. f_equal. apply IH; lia.
Qed.

(** The walk from the file [/s1/.../sn/name]: the directories
    [/s1/.../sn], ..., [/s1] when [n > 0], and the root alone when the file
    lies directly in it. *)
Lemma ancestor_chain_abs (segs : list string) (name : string) :
  forallb is_plain (segs ++ [name]) = true →
  ancestor_chain (abs_path (segs ++ [name])) =
    if segs is [] then ["/"] else ancestors segs (length segs).
Proof.
  intros Hplain. unfold ancestor_chain. rewrite parse_abs by done. cbn [path.root path.dir].
  destruct segs as [|seg segs].
  - unfold upward. destruct (String.length _); [done|]. done.
  - pose proof (abs_path_length _ Hplain) as Hlen. rewrite length_app in Hlen.
    apply is_plain_app in Hplain as [Hplain _].
    set (segs' := seg :: segs) in *.
    assert (take (S (length segs)) segs' = segs') as Htake by apply (firstn_all segs').
    change (length segs') with (S (length segs)). cbn [ancestors]. rewrite Htake. f_equal.
    pose proof (upward_abs segs' (length segs)
                  (String.length (abs_path (segs' ++ [name]))) Hplain) as Hup.
    rewrite Htake in Hup. apply Hup; [done|].
    change (length segs') with (S (length segs)) in Hlen. lia.
Qed.

(** ** The root of the filesystem in the walk *)

Lemma ancestors_manifests (segs : list string) (k : nat) :
  forallb is_plain segs = true → k ≤ length segs →
  Forall (λ dir, dir ≠ "/") (ancestors segs k) ∧
  Forall (λ candidate, ∃ j, 1 ≤ j ≤ k ∧
            candidate = abs_path (take j segs ++ ["package.json"]))
         (manifest_in <$> ancestors segs k).
Proof.
  intros Hplain. induction k as [|k IH]; intros Hk; [by split|].
  destruct IH as [IHdir IHman]; [lia|]. cbn [ancestors fmap list_fmap].
  pose proof (abs_path_length _ (is_plain_take segs (S k) Hplain)) as Hlen.
  rewrite length_take in Hlen. split.
  - constructor; [|done]. intros Heq. rewrite Heq in Hlen.
    change (String.length "/") with 1 in Hlen. lia.
  - constructor.
    + exists (S k). split; [lia|]. apply manifest_in_abs; [by apply is_plain_take|].
      intros Htake. apply (f_equal length) in Htake. rewrite length_take in Htake.
      cbn [length] in Htake. lia.
    + eapply Forall_impl; [exact IHman|]. intros c (j & Hj & ->). exists j. split; [lia|done].
Qed.

Lemma abs_path_snoc_length (segs : list string) (seg : string) :
  String.length (abs_path (segs ++ [seg])) =
  String.length (abs_path segs) + 1 + String.length seg.
Proof.
  rewrite <- !length_chars, !chars_abs_path, fmap_app. cbn [fmap list_fmap].
  rewrite abs_chars_snoc, length_app. cbn [length]. lia.
Qed.

Lemma find_none {A} (f : A → bool) (l : list A) :
  Forall (λ x, f x = false) l → List.find f l = None.
Proof. induction 1 as [|x l Hx _ IH]; [done|]. simpl. by rewrite Hx. Qed.

(** C9, as stated, fails: for a file that lies directly in the root, the
    first round of the loop probes the root itself, and the manifest there
    is returned. *)
Lemma root_manifest_found_for_file_in_root :
  _getClosestPackage 8 "/foo.js" example.root_world =
    (Return (Some "/package.json"), example.root_world).
Proof. vm_compute. reflexivity. Qed.

(** C9, amended: for a file [/s1/.../sn/name] of plain segments, the root is
    probed only when the file lies directly in it ([n = 0]), in the first
    round, which the do-while loop runs before any test; then the manifest
    of the root is returned when the registry has it.  When [n > 0] the walk
    never reaches the root: [/package.json] is not among the manifests
    probed, and the function returns [null] when no directory from [/s1] to
    [/s1/.../sn] has a manifest, whether or not the root has one. *)
Theorem root_probed_only_for_files_in_root (fuel : nat) (segs : list string)
    (name : string) (w : World) :
  forallb is_plain (segs ++ [name]) = true →
  String.length (abs_path (segs ++ [name])) < fuel →
  match segs with
  | [] =>
      _getClosestPackage fuel (abs_path [name]) w =
        (Return (if HasteFS.exists_ (_hasteFS (this w)) "/package.json"
                 then Some "/package.json" else None), w)
  | _ =>
      ("/" ∉ ancestor_chain (abs_path (segs ++ [name]))) ∧
      ("/package.json" ∉ (manifest_in <$> ancestor_chain (abs_path (segs ++ [name])))) ∧
      ((∀ k, 1 ≤ k ≤ length segs →
          HasteFS.exists_ (_hasteFS (this w))
            (abs_path (take k segs ++ ["package.json"])) = false) →
       _getClosestPackage fuel (abs_path (segs ++ [name])) w = (Return None, w))
  end.
Proof.
  intros Hplain Hfuel. pose proof (ancestor_chain_abs segs name Hplain) as Hchain.
  destruct segs as [|seg segs].
  - change ([] ++ [name]) with [name] in *.
    rewrite _getClosestPackage_runs by done. rewrite Hchain.
    change (manifest_in <$> ["/"]) with ["/package.json"]. simpl.
    by destruct (HasteFS.exists_ _ _).
  - set (segs' := seg :: segs) in *.
    apply is_plain_app in Hplain as [Hplain _].
    destruct (ancestors_manifests segs' (length segs') Hplain) as [Hdirs Hmans]; [done|].
    rewrite Hchain. split_and!.
    + intros Hin. rewrite Forall_forall in Hdirs. by apply (Hdirs "/").
    + intros Hin. rewrite Forall_forall in Hmans.
      destruct (Hmans _ Hin) as (j & Hj & Heq).
      apply (f_equal String.length) in Heq. rewrite abs_path_snoc_length in Heq.
      pose proof (abs_path_length _ (is_plain_take segs' j Hplain)) as Hlen.
      rewrite length_take in Hlen. simpl in Heq. lia.
    + intros Hnone. rewrite _getClosestPackage_runs by done. rewrite Hchain.
      rewrite find_none; [done|]. eapply Forall_impl; [exact Hmans|].
      intros c (j & Hj & ->). by apply Hnone.
Qed.

Lemma root_probed_only_for_files_in_root_witness :
  _getClosestPackage 10 "/a/b.js" example.root_world = (Return None, example.root_world).
Proof.
  refine (proj2 (proj2 (root_probed_only_for_files_in_root 10 ["a"] "b.js"
                          example.root_world _ _)) _).
  - vm_compute. reflexivity.
  - vm_compute. lia.
  - intros k Hk. assert (k = 1) as -> by (simpl in Hk; lia). vm_compute. reflexivity.
Defined.

(** ** [getHasteName] *)

Lemma getHasteName_named (w : World) (filePath name : string) :
  HasteFS.getModuleName (_hasteFS (this w)) filePath = Some name →
  name ≠ "" →
  getHasteName filePath w = (Return name, w).
Proof.
  intros Hname Hne%truthy_Some. unfold getHasteName, bind, gets. simpl.
  rewrite Hname. simpl in *. by rewrite Hne.
Qed.

Lemma getHasteName_unnamed (w : World) (filePath : string) :
  truthy (HasteFS.getModuleName (_hasteFS (this w)) filePath) = false →
  getHasteName filePath w =
    (Return (path.relative (cwd w) (projectRoot (_config (this w))) filePath), w).
Proof. intros Hname. unfold getHasteName, bind, gets. simpl. by rewrite Hname. Qed.

Lemma resolved_segments_abs (cwd : string) (segs : list string) :
  forallb is_plain segs = true → segs ≠ [] →
  path.resolved_segments cwd (abs_path segs) = chars <$> segs.
Proof.
  intros Hplain%Forall_plain Hne. unfold path.resolved_segments. rewrite chars_abs_path.
  assert (char_is (abs_chars (chars <$> segs)) 0 path.SLASH = true) as ->
    by (by destruct segs).
  rewrite split_slash_abs by done. simpl.
  unfold path.normalize_step at 2. rewrite decide_True by (by left).
  by rewrite normalize_plain, app_nil_r, reverse_involutive.
Qed.

Lemma strip_common_prefix (segs rest : list (list ascii)) :
  path.strip_common segs (segs ++ rest) = ([], rest).
Proof.
  induction segs as [|seg segs IH]; [by destruct rest|].
  simpl. by rewrite decide_True.
Qed.

(** A file below the project root, relative to the root, is the path from
    the root down to it. *)
Lemma relative_below (cwd : string) (rootSegs rest : list string) :
  forallb is_plain (rootSegs ++ rest) = true → rootSegs ≠ [] → rest ≠ [] →
  path.relative cwd (abs_path rootSegs) (abs_path (rootSegs ++ rest)) = rel_path rest.
Proof.
  intros Hplain Hroot Hrest. pose proof Hplain as [Hplain_root _]%is_plain_app.
  unfold path.relative. rewrite decide_False.
  - rewrite !resolved_segments_abs by (done || by destruct rootSegs).
    by rewrite fmap_app, strip_common_prefix.
  - intros Heq. apply (f_equal chars) in Heq. rewrite !chars_abs_path, fmap_app in Heq.
    unfold abs_chars in Heq. rewrite fmap_app, concat_app in Heq.
    rewrite <- (app_nil_r (concat _)) in Heq at 1. apply app_inv_head in Heq.
    by destruct rest.
Qed.

(** C7: [getHasteName] returns the name the registry records for the path
    when there is one, and otherwise [path.relative(projectRoot, filePath)];
    for a file below the project root that is the path from the root down
    to the file. *)
Theorem getHasteName_name_or_relative_path (w : World) (filePath : string) :
  (∀ name,
     HasteFS.getModuleName (_hasteFS (this w)) filePath = Some name → name ≠ "" →
     getHasteName filePath w = (Return name, w)) ∧
  (truthy (HasteFS.getModuleName (_hasteFS (this w)) filePath) = false →
   getHasteName filePath w =
     (Return (path.relative (cwd w) (projectRoot (_config (this w))) filePath), w)) ∧
  (∀ rootSegs rest,
     truthy (HasteFS.getModuleName (_hasteFS (this w)) filePath) = false →
     forallb is_plain (rootSegs ++ rest) = true → rootSegs ≠ [] → rest ≠ [] →
     projectRoot (_config (this w)) = abs_path rootSegs →
     filePath = abs_path (rootSegs ++ rest) →
     getHasteName filePath w = (Return (rel_path rest), w)).
Proof.
  split_and!.
  - intros name. apply getHasteName_named.
  - apply getHasteName_unnamed.
  - intros rootSegs rest Hname Hplain Hroot Hrest HprojectRoot ->.
    rewrite getHasteName_unnamed by done. rewrite HprojectRoot.
    by rewrite relative_below.
Qed.

Lemma getHasteName_name_or_relative_path_witness :
  getHasteName "/proj/src/b.js" example.world = (Return "src/b.js", example.world).
Proof.
  refine (proj2 (proj2 (getHasteName_name_or_relative_path example.world "/proj/src/b.js"))
            ["proj"] ["src"; "b.js"] _ _ _ _ _ _);
    try discriminate; vm_compute; reflexivity.
Defined.

(** C10: a registry name that is the empty string counts as no name: like
    [null], it makes [getHasteName] fall back to the path relative to the
    project root. *)
Theorem getHasteName_empty_name_is_no_name (w : World) (filePath : string) :
  HasteFS.getModuleName (_hasteFS (this w)) filePath = Some "" ∨
  HasteFS.getModuleName (_hasteFS (this w)) filePath = None →
  getHasteName filePath w =
    (Return (path.relative (cwd w) (projectRoot (_config (this w))) filePath), w).
Proof.
  intros Hname. apply getHasteName_unnamed, truthy_false. by destruct Hname; [right|left].
Qed.

Lemma getHasteName_empty_name_is_no_name_witness :
  getHasteName "/proj/src/b.js" example.nameless_world =
    (Return "src/b.js", example.nameless_world).
Proof.
  refine (eq_trans (getHasteName_empty_name_is_no_name example.nameless_world
                      "/proj/src/b.js" (or_introl eq_refl)) _).
  vm_compute. reflexivity.
Defined.

(** ** The graph over its lifetime *)

Lemma getHasteName_frame (w : World) (filePath : string) : (getHasteName filePath w).2 = w.
Proof.
  destruct (truthy (HasteFS.getModuleName (_hasteFS (this w)) filePath)) eqn:Hname.
  - destruct (HasteFS.getModuleName _ _) as [name|] eqn:Hsome; [|done].
    apply truthy_Some in Hname. by rewrite (getHasteName_named w filePath name).
  - by rewrite getHasteName_unnamed.
Qed.

Lemma after_fresh (c : Call) (w : World) :
  fresh_index (this w) → Forall (λ seen, fresh_index seen.2) (emitted w) →
  fresh_index (this (after c w)) ∧ Forall (λ seen, fresh_index seen.2) (emitted (after c w)).
Proof.
  intros Hthis Hseen. destruct c as [event|algorithm from to platform|filename|filePath];
    cbn [after].
  - rewrite _onHasteChange_runs. cbn [snd this emitted].
    assert (fresh_index (changed event (this w))) as Hfresh by done.
    split; [done|]. apply Forall_app. split; [done|]. by apply Forall_singleton.
  - destruct (resolveDependency_fills algorithm from to platform w)
      as (_ & _ & Hemitted & _ & Hindex & HhasteFS & _).
    unfold fresh_index. by rewrite Hemitted, Hindex, HhasteFS.
  - by rewrite getSha1_frame.
  - by rewrite getHasteName_frame.
Qed.

(** From construction on, whatever is called and whichever notifications
    arrive, the file index is the one of the current snapshot, and so it was
    each time the listeners of ['change'] ran. *)
Lemma listeners_never_see_a_stale_index (config : ConfigT) (initialHasteFS : HasteFS.t)
    (initialModuleMap : ModuleMap)
    (rank : gset string → string → option string → option (list string))
    (disk : fs.t) (cwd : string) (calls : list Call) :
  let w := foldl (λ w c, after c w)
             {| disk := disk; cwd := cwd;
                this := constructor config initialHasteFS initialModuleMap rank;
                emitted := [] |} calls in
  fresh_index (this w) ∧ Forall (λ seen, fresh_index seen.2) (emitted w).
Proof.
  cbv zeta.
  match goal with |- context [foldl _ ?w0 _] =>
    assert (fresh_index (this w0) ∧ Forall (λ seen, fresh_index seen.2) (emitted w0)) as H0
      by (by split);
    generalize dependent w0 end.
  induction calls as [|c calls IH]; intros w0 [Hthis Hseen]; [done|].
  simpl. apply IH. by apply after_fresh.
Qed.

(** * Further properties *)

(** ** Notifications and calls in sequence *)

Lemma after_emitted (c : Call) (w : World) :
  (emitted (after c w)).*1 = (emitted w).*1 ++ (if is_change c then ["change"] else []).
Proof.
  destruct c as [event|algorithm from to platform|filename|filePath]; cbn [after is_change].
  - rewrite _onHasteChange_runs. cbn [snd emitted]. by rewrite fmap_app.
  - destruct (resolveDependency_fills algorithm from to platform w) as (_ & _ & -> & _).
    by rewrite app_nil_r.
  - by rewrite getSha1_frame, app_nil_r.
  - by rewrite getHasteName_frame, app_nil_r.
Qed.

(** X1: over any sequence of notifications and public calls, the graph
    emits ['change'] once per notification and nothing else: no call of
    [resolveDependency], [getSha1] or [getHasteName] emits. *)
Theorem change_emitted_once_per_notification (calls : list Call) (w : World) :
  (emitted (run calls w)).*1 =
  (emitted w).*1 ++ replicate (length (List.filter is_change calls)) "change".
Proof.
  unfold run. revert w. induction calls as [|c calls IH]; intros w.
  - simpl. by rewrite app_nil_r.
  - cbn [foldl List.filter]. rewrite IH, after_emitted, <- app_assoc. f_equal.
    by destruct (is_change c).
Qed.

Lemma after_latest (c : Call) (w : World) :
  _moduleResolver (this w) = resolver_for (this w) →
  (_hasteFS (this (after c w)), _moduleMap (this (after c w))) =
    latest [c] (_hasteFS (this w), _moduleMap (this w)) ∧
  _config (this (after c w)) = _config (this w) ∧
  _helpers (this (after c w)) = _helpers (this w) ∧
  _moduleResolver (this (after c w)) = resolver_for (this (after c w)).
Proof.
  intros Hsync.
  destruct c as [event|algorithm from to platform|filename|filePath]; cbn [after latest].
  - by rewrite _onHasteChange_runs.
  - destruct (resolveDependency_fills algorithm from to platform w)
      as (_ & _ & _ & Hconfig & _ & HhasteFS & Hhelpers & HmoduleMap & Hresolver & _).
    unfold resolver_for. rewrite HhasteFS, HmoduleMap, Hconfig, Hhelpers, Hresolver.
    by rewrite Hsync.
  - by rewrite getSha1_frame.
  - by rewrite getHasteName_frame.
Qed.

Lemma run_latest (calls : list Call) (w : World) :
  _moduleResolver (this w) = resolver_for (this w) →
  (_hasteFS (this (run calls w)), _moduleMap (this (run calls w))) =
    latest calls (_hasteFS (this w), _moduleMap (this w)) ∧
  _config (this (run calls w)) = _config (this w) ∧
  _helpers (this (run calls w)) = _helpers (this w) ∧
  _moduleResolver (this (run calls w)) = resolver_for (this (run calls w)).
Proof.
  unfold run. revert w. induction calls as [|c calls IH]; intros w Hsync; [done|].
  cbn [foldl]. destruct (after_latest c w Hsync) as (Hlatest & Hconfig & Hhelpers & Hsync').
  destruct (IH (after c w) Hsync') as (Hlatest' & Hconfig' & Hhelpers' & Hsync'').
  rewrite Hlatest', Hconfig', Hhelpers', Hconfig, Hhelpers. split_and!; try done.
  rewrite Hlatest. by destruct c.
Qed.

(** X2: from construction on, whatever is called and whichever
    notifications arrive, the registry snapshot and the module map of the
    graph are those of the latest notification (the initial ones before the
    first), the configuration and the helpers are the constructor's, and the
    resolver options are the ones built from that configuration and the
    current module map: the resolver never holds a module map that a
    notification has replaced. *)
Theorem graph_follows_latest_notification (config : ConfigT) (initialHasteFS : HasteFS.t)
    (initialModuleMap : ModuleMap)
    (rank : gset string → string → option string → option (list string))
    (disk : fs.t) (cwd : string) (calls : list Call) :
  let g := this (run calls
                   {| disk := disk; cwd := cwd;
                      this := constructor config initialHasteFS initialModuleMap rank;
                      emitted := [] |}) in
  (_hasteFS g, _moduleMap g) = latest calls (initialHasteFS, initialModuleMap) ∧
  _config g = config ∧
  _helpers g = helpers_for config ∧
  _moduleResolver g = resolver_for g ∧
  ModuleResolver.moduleMap (_moduleResolver g) = (latest calls (initialHasteFS, initialModuleMap)).2.
Proof.
  cbv zeta.
  match goal with |- context [run calls ?w0] =>
    destruct (run_latest calls w0) as (Hlatest & Hconfig & Hhelpers & Hsync); [done|] end.
  cbn [this constructor _hasteFS _moduleMap _config _helpers] in Hlatest, Hconfig, Hhelpers.
  split_and!; try done. rewrite Hsync. cbn [resolver_for ModuleResolver.moduleMap].
  by rewrite <- Hlatest.
Qed.

(** X3: from construction on, whatever is called and whichever
    notifications arrive, the file index of the graph is the one built from
    the file list of its current registry snapshot, and so it was each time
    the listeners of ['change'] ran. *)
Theorem file_index_follows_snapshot (config : ConfigT) (initialHasteFS : HasteFS.t)
    (initialModuleMap : ModuleMap)
    (rank : gset string → string → option string → option (list string))
    (disk : fs.t) (cwd : string) (calls : list Call) :
  let w := run calls
             {| disk := disk; cwd := cwd;
                this := constructor config initialHasteFS initialModuleMap rank;
                emitted := [] |} in
  _filesByDirNameIndex (this w) =
    FilesByDirNameIndex.new (HasteFS.getAllFiles (_hasteFS (this w))) ∧
  Forall (λ seen : string * DependencyGraph,
            _filesByDirNameIndex seen.2 =
              FilesByDirNameIndex.new (HasteFS.getAllFiles (_hasteFS seen.2)))
         (emitted w).
Proof.
  apply (listeners_never_see_a_stale_index config initialHasteFS initialModuleMap rank
           disk cwd calls).
Qed.

(** ** More on [getSha1] *)

(** X4: a path hashes like its real path: when [fs.realpathSync] resolves
    [filename] to a path that is its own real path, [getSha1] has the same
    outcome on both, be it the recorded hash, the recomputed one or the
    error of the read. *)
Theorem getSha1_of_link_is_getSha1_of_target (w : World) (filename resolvedPath : string) :
  fs.realpathSync (disk w) filename = inr resolvedPath →
  fs.realpathSync (disk w) resolvedPath = inr resolvedPath →
  getSha1 filename w = getSha1 resolvedPath w.
Proof.
  intros Hlink Htarget.
  destruct (truthy (HasteFS.getSha1 (_hasteFS (this w)) resolvedPath)) eqn:Hsha.
  - destruct (HasteFS.getSha1 (_hasteFS (this w)) resolvedPath) as [h|] eqn:Hh; [|done].
    apply truthy_Some in Hsha.
    rewrite (getSha1_recorded w filename resolvedPath h) by done.
    by rewrite (getSha1_recorded w resolvedPath resolvedPath h).
  - rewrite (getSha1_unrecorded w filename resolvedPath) by done.
    by rewrite (getSha1_unrecorded w resolvedPath resolvedPath).
Qed.

Lemma getSha1_of_link_is_getSha1_of_target_witness :
  getSha1 "/proj/link-b.js" example.world = getSha1 "/proj/src/b.js" example.world.
Proof.
  apply (getSha1_of_link_is_getSha1_of_target example.world "/proj/link-b.js"
           "/proj/src/b.js"); vm_compute; reflexivity.
Defined.

Lemma length_unchars (l : list ascii) : String.length (unchars l) = length l.
Proof. by rewrite <- length_chars, chars_unchars. Qed.

Lemma sha1_hex_length (content : string) : String.length (crypto.sha1_hex content) = 40.
Proof.
  unfold crypto.sha1_hex. cbv zeta. rewrite length_unchars, !length_app.
  unfold crypto.hex32. by rewrite !length_fmap, !length_seq.
Qed.

(** X5: [getSha1] never returns the empty string: a value it returns is
    either the truthy hash of the registry or a recomputed hash, and a
    recomputed hash has 40 characters. *)
Theorem getSha1_never_returns_empty (w : World) (filename h : string) :
  (getSha1 filename w).1 = Return h →
  h ≠ "" ∧
  ∀ resolvedPath,
    fs.realpathSync (disk w) filename = inr resolvedPath →
    truthy (HasteFS.getSha1 (_hasteFS (this w)) resolvedPath) = false →
    String.length h = 40.
Proof.
  intros Hrun.
  destruct (fs.realpathSync (disk w) filename) as [code|resolvedPath] eqn:Hreal.
  { by rewrite (getSha1_unresolved w filename code) in Hrun. }
  destruct (truthy (HasteFS.getSha1 (_hasteFS (this w)) resolvedPath)) eqn:Hsha.
  - destruct (HasteFS.getSha1 (_hasteFS (this w)) resolvedPath) as [h'|] eqn:Hh; [|done].
    apply truthy_Some in Hsha.
    rewrite (getSha1_recorded w filename resolvedPath h') in Hrun by done.
    injection Hrun as <-. split; [done|]. intros r [= <-] Hfalse.
    rewrite ?Hh in Hfalse. by apply truthy_false in Hfalse as [?|[= ?]].
  - rewrite (getSha1_unrecorded w filename resolvedPath) in Hrun by done.
    destruct (fs.readFileSync (disk w) resolvedPath) as [code|content]; [done|].
    injection Hrun as <-. pose proof (sha1_hex_length content) as Hlen. split.
    + intros Hempty. by rewrite Hempty in Hlen.
    + done.
Qed.

Lemma getSha1_never_returns_empty_witness :
  crypto.sha1_hex "abc" ≠ "" ∧
  ∀ resolvedPath,
    fs.realpathSync (disk example.world) "/proj/link-b.js" = inr resolvedPath →
    truthy (HasteFS.getSha1 (_hasteFS (this example.world)) resolvedPath) = false →
    String.length (crypto.sha1_hex "abc") = 40.
Proof.
  apply (getSha1_never_returns_empty example.world "/proj/link-b.js").
  vm_compute. reflexivity.
Defined.

(** ** More on [getHasteName] *)

Lemma chars_inj (a b : string) : chars a = chars b → a = b.
Proof. intros Heq. by rewrite <- (unchars_chars a), <- (unchars_chars b), Heq. Qed.

Lemma fmap_chars_inj (a b : list string) : chars <$> a = chars <$> b → a = b.
Proof.
  revert b. induction a as [|x a IH]; intros [|y b] Heq; try done.
  rewrite !fmap_cons in Heq. injection Heq as Hx%chars_inj Hrest%IH. by subst.
Qed.

Lemma abs_path_inj (a b : list string) :
  forallb is_plain a = true → forallb is_plain b = true →
  abs_path a = abs_path b → a = b.
Proof.
  intros Ha%Forall_plain Hb%Forall_plain Heq%(f_equal chars).
  rewrite !chars_abs_path in Heq. apply (f_equal path.split_slash) in Heq.
  rewrite !split_slash_abs in Heq by done. injection Heq as Heq. by apply fmap_chars_inj.
Qed.

Lemma rel_path_inj (a b : list string) :
  forallb is_plain a = true → forallb is_plain b = true → a ≠ [] → b ≠ [] →
  rel_path a = rel_path b → a = b.
Proof.
  intros Ha Hb Hane Hbne Heq. apply abs_path_inj; try done.
  unfold rel_path in Heq. apply (f_equal chars) in Heq. rewrite !chars_unchars in Heq.
  unfold abs_path.
  rewrite <- (join_slash_abs (chars <$> a)) by (by destruct a).
  rewrite <- (join_slash_abs (chars <$> b)) by (by destruct b).
  by rewrite Heq.
Qed.

Lemma strip_common_diverge (common up down : list (list ascii)) :
  match up, down with x :: _, y :: _ => x ≠ y | _, _ => True end →
  path.strip_common (common ++ up) (common ++ down) = (up, down).
Proof.
  intros Hdiverge. induction common as [|seg common IH].
  - destruct up as [|x up], down as [|y down]; try done. simpl. by rewrite decide_False.
  - simpl. by rewrite decide_True.
Qed.

(** From a directory to a file, both absolute and made of plain segments:
    one [..] for each segment of the directory below their common ancestor,
    then the segments of the file below it. *)
Lemma relative_plain (cwd : string) (common up down : list string) :
  forallb is_plain (common ++ up) = true → forallb is_plain (common ++ down) = true →
  common ++ up ≠ [] → common ++ down ≠ [] → diverge up down →
  path.relative cwd (abs_path (common ++ up)) (abs_path (common ++ down)) =
    rel_path (replicate (length up) ".." ++ down).
Proof.
  intros Hup Hdown Hup_ne Hdown_ne Hdiverge. unfold path.relative. case_decide as Heq.
  - apply abs_path_inj, app_inv_head in Heq; try done. subst down.
    destruct up; [done|]. by simpl in Hdiverge.
  - rewrite !resolved_segments_abs by done. rewrite !fmap_app, strip_common_diverge.
    + unfold rel_path. do 2 f_equal. rewrite (fmap_app chars). f_equal.
      clear. induction up as [|x up IH]; [done|].
      rewrite !fmap_cons. cbn [length replicate]. by rewrite fmap_cons, IH.
    + destruct up as [|x up], down as [|y down]; try done. simpl in *.
      intros Hxy%chars_inj. done.
Qed.

(** X6: for a file the registry has no name for, [getHasteName] walks from
    the project root to the file: with both paths absolute and made of plain
    segments, the result has one [..] for each segment of the root below
    their common ancestor, followed by the segments of the file below it; it
    is the empty string for the project root itself. *)
Theorem getHasteName_fallback_walks_up_then_down (w : World) (common up down : list string) :
  truthy (HasteFS.getModuleName (_hasteFS (this w)) (abs_path (common ++ down))) = false →
  forallb is_plain (common ++ up) = true → forallb is_plain (common ++ down) = true →
  common ++ up ≠ [] → common ++ down ≠ [] → diverge up down →
  projectRoot (_config (this w)) = abs_path (common ++ up) →
  getHasteName (abs_path (common ++ down)) w =
    (Return (rel_path (replicate (length up) ".." ++ down)), w).
Proof.
  intros Hname Hup Hdown Hup_ne Hdown_ne Hdiverge Hroot.
  rewrite getHasteName_unnamed by done. rewrite Hroot. by rewrite relative_plain.
Qed.

Lemma getHasteName_fallback_walks_up_then_down_witness :
  getHasteName "/foo.js" example.world = (Return "../foo.js", example.world).
Proof.
  refine (getHasteName_fallback_walks_up_then_down example.world [] ["proj"] ["foo.js"]
            _ _ _ _ _ _ _);
    try discriminate; vm_compute; reflexivity.
Defined.

(** X7: the fallback names of [getHasteName] do not collide below the
    project root: two different files there, neither with a name in the
    registry, get different names. *)
Theorem getHasteName_fallback_names_differ (w : World) (rootSegs rest1 rest2 : list string) :
  truthy (HasteFS.getModuleName (_hasteFS (this w)) (abs_path (rootSegs ++ rest1))) = false →
  truthy (HasteFS.getModuleName (_hasteFS (this w)) (abs_path (rootSegs ++ rest2))) = false →
  forallb is_plain (rootSegs ++ rest1) = true → forallb is_plain (rootSegs ++ rest2) = true →
  rootSegs ≠ [] → rest1 ≠ [] → rest2 ≠ [] →
  projectRoot (_config (this w)) = abs_path rootSegs →
  rest1 ≠ rest2 →
  (getHasteName (abs_path (rootSegs ++ rest1)) w).1 ≠
  (getHasteName (abs_path (rootSegs ++ rest2)) w).1.
Proof.
  intros Hname1 Hname2 Hplain1 Hplain2 Hroot Hrest1 Hrest2 HprojectRoot Hne.
  rewrite !getHasteName_unnamed by done. rewrite HprojectRoot.
  rewrite !relative_below by done. cbn [fst]. intros [= Heq].
  apply Hne, rel_path_inj; try done.
  - by apply is_plain_app in Hplain1 as [_ ?].
  - by apply is_plain_app in Hplain2 as [_ ?].
Qed.

Lemma getHasteName_fallback_names_differ_witness :
  (getHasteName "/proj/src/b.js" example.world).1 ≠
  (getHasteName "/proj/src/c.js" example.world).1.
Proof.
  refine (getHasteName_fallback_names_differ example.world ["proj"]
            ["src"; "b.js"] ["src"; "c.js"] _ _ _ _ _ _ _ _ _);
    try discriminate; vm_compute; reflexivity.
Defined.

(** ** More on [_getClosestPackage] *)

Lemma is_plain_manifest : is_plain "package.json" = true.
Proof. by vm_compute. Qed.

Lemma is_plain_snoc (segs : list string) (seg : string) :
  forallb is_plain segs = true → is_plain seg = true →
  forallb is_plain (segs ++ [seg]) = true.
Proof.
  intros Hsegs Hseg. apply is_plain_app. split; [done|]. cbn [forallb]. by rewrite Hseg.
Qed.

Lemma ancestors_head (segs : list string) :
  segs ≠ [] → ∃ rest, ancestors segs (length segs) = abs_path segs :: rest.
Proof.
  destruct segs as [|seg segs]; [done|]. intros _.
  change (length (seg :: segs)) with (S (length segs)). cbn [ancestors].
  assert (take (S (length segs)) (seg :: segs) = seg :: segs) as ->
    by apply (firstn_all (seg :: segs)).
  eauto.
Qed.

(** The walk from a manifest file starts with that manifest. *)
Lemma manifest_probed_first (pre : list string) :
  forallb is_plain pre = true →
  ∃ rest, manifest_in <$> ancestor_chain (abs_path (pre ++ ["package.json"])) =
          abs_path (pre ++ ["package.json"]) :: rest.
Proof.
  intros Hpre.
  rewrite ancestor_chain_abs by (by apply is_plain_snoc, is_plain_manifest).
  destruct pre as [|seg pre]; [by exists []|].
  destruct (ancestors_head (seg :: pre)) as [rest ->]; [done|].
  rewrite fmap_cons, manifest_in_abs by done. eauto.
Qed.

(** A manifest found from a file of plain segments is the manifest of a
    path of plain segments. *)
Lemma found_manifest_shape (segs : list string) (name manifest : string) :
  forallb is_plain (segs ++ [name]) = true →
  manifest ∈ manifest_in <$> ancestor_chain (abs_path (segs ++ [name])) →
  ∃ pre, forallb is_plain pre = true ∧ manifest = abs_path (pre ++ ["package.json"]).
Proof.
  intros Hplain Hin. rewrite ancestor_chain_abs in Hin by done.
  apply is_plain_app in Hplain as [Hsegs _].
  destruct segs as [|seg segs].
  - exists []. split; [done|]. by apply list_elem_of_singleton in Hin.
  - destruct (ancestors_manifests (seg :: segs) (length (seg :: segs)) Hsegs)
      as [_ Hmanifests]; [done|].
    rewrite Forall_forall in Hmanifests. destruct (Hmanifests _ Hin) as (j & _ & ->).
    exists (take j (seg :: segs)). split; [by apply is_plain_take | done].
Qed.

(** X8: the closest package of a manifest is that manifest: what
    [_getClosestPackage] returns for a file of plain segments, it returns
    again when asked about the returned path. *)
Theorem closest_package_of_a_manifest_is_itself (fuel fuel' : nat) (segs : list string)
    (name manifest : string) (w : World) :
  forallb is_plain (segs ++ [name]) = true →
  String.length (abs_path (segs ++ [name])) < fuel →
  String.length manifest < fuel' →
  _getClosestPackage fuel (abs_path (segs ++ [name])) w = (Return (Some manifest), w) →
  _getClosestPackage fuel' manifest w = (Return (Some manifest), w).
Proof.
  intros Hplain Hfuel Hfuel' Hrun. rewrite _getClosestPackage_runs in Hrun by done.
  set (found := List.find _ _) in Hrun.
  assert (found = Some manifest) as Hfind by congruence. unfold found in Hfind.
  clear found Hrun.
  apply find_first in Hfind as (before & after & Hsplit & Hexists & _).
  destruct (found_manifest_shape segs name manifest Hplain) as (pre & Hpre & ->).
  { rewrite Hsplit. apply elem_of_app. right. apply elem_of_cons. by left. }
  rewrite _getClosestPackage_runs by done.
  destruct (manifest_probed_first pre Hpre) as [rest ->].
  simpl. by rewrite Hexists.
Qed.

Lemma closest_package_of_a_manifest_is_itself_witness :
  _getClosestPackage 20 "/proj/package.json" example.world =
    (Return (Some "/proj/package.json"), example.world).
Proof.
  apply (closest_package_of_a_manifest_is_itself 15 20 ["proj"; "src"] "b.js");
    [vm_compute; reflexivity | simpl; lia | simpl; lia | vm_compute; reflexivity].
Defined.

Lemma ancestors_prefix (segs sub : list string) (k : nat) :
  k ≤ length segs → ancestors (segs ++ sub) k = ancestors segs k.
Proof.
  induction k as [|k IH]; intros Hk; [done|]. cbn [ancestors].
  rewrite IH by lia. by rewrite take_app_le.
Qed.

Lemma find_inherited (exists_ : string → bool) (segs sub : list string) (j : nat) :
  forallb is_plain (segs ++ sub) = true → segs ≠ [] → j ≤ length sub →
  (∀ k, 1 ≤ k ≤ j →
     exists_ (abs_path ((segs ++ take k sub) ++ ["package.json"])) = false) →
  List.find exists_ (manifest_in <$> ancestors (segs ++ sub) (length segs + j)) =
  List.find exists_ (manifest_in <$> ancestors segs (length segs)).
Proof.
  intros Hplain Hsegs. induction j as [|j IH]; intros Hj Hnone.
  - by rewrite Nat.add_0_r, ancestors_prefix.
  - rewrite Nat.add_succ_r. cbn [ancestors fmap list_fmap List.find].
    rewrite <- Nat.add_succ_r, take_app_add'  by done.
    rewrite manifest_in_abs.
    + rewrite Hnone by lia. apply IH; [lia|]. intros k Hk. apply Hnone. lia.
    + rewrite <- (take_drop (S j) sub), app_assoc in Hplain.
      by apply is_plain_app in Hplain as [? _].
    + by destruct segs.
Qed.

(** X9: a package is inherited downwards: for a directory [/s1/.../sn]
    ([n >= 1], plain segments), a file anywhere below it, with no manifest
    in the directories strictly between, has the closest package of the
    files lying directly in [/s1/.../sn]; in particular all files of one
    directory share their closest package. *)
Theorem closest_package_is_inherited (fuel fuel' : nat) (segs sub : list string)
    (name name' : string) (w : World) :
  forallb is_plain (segs ++ sub ++ [name]) = true →
  is_plain name' = true →
  segs ≠ [] →
  String.length (abs_path (segs ++ sub ++ [name])) < fuel →
  String.length (abs_path (segs ++ [name'])) < fuel' →
  (∀ k, 1 ≤ k ≤ length sub →
     HasteFS.exists_ (_hasteFS (this w))
       (abs_path ((segs ++ take k sub) ++ ["package.json"])) = false) →
  _getClosestPackage fuel (abs_path (segs ++ sub ++ [name])) w =
  _getClosestPackage fuel' (abs_path (segs ++ [name'])) w.
Proof.
  intros Hplain Hname' Hsegs Hfuel Hfuel' Hnone.
  rewrite !_getClosestPackage_runs by done.
  rewrite app_assoc in Hplain |- *.
  pose proof Hplain as [Hdirs _]%is_plain_app.
  pose proof Hdirs as [Hplain_segs _]%is_plain_app.
  rewrite (ancestor_chain_abs (segs ++ sub) name) by done.
  rewrite (ancestor_chain_abs segs name') by (by apply is_plain_snoc).
  destruct segs as [|seg segs]; [done|].
  cbn [app]. rewrite <- (app_comm_cons segs sub seg) in *.
  change (seg :: segs ++ sub) with ((seg :: segs) ++ sub).
  rewrite length_app. do 2 f_equal.
  by apply find_inherited.
Qed.

Lemma closest_package_is_inherited_witness :
  _getClosestPackage 30 "/proj/src/deep/c.js" example.world =
  _getClosestPackage 20 "/proj/a.js" example.world.
Proof.
  apply (closest_package_is_inherited 30 20 ["proj"] ["src"; "deep"] "c.js" "a.js");
    try (vm_compute; reflexivity); try discriminate; try (simpl; lia).
  intros k Hk. simpl in Hk.
  assert (k = 1 ∨ k = 2) as [-> | ->] by lia; vm_compute; reflexivity.
Defined.

(** ** More on [_onHasteChange] *)

Lemma processed_twice (events : list (ModuleCache.EventType * string))
    (cache : gmap string ModuleCache.Module) :
  foldl (λ cache event, ModuleCache.processFileChange event.1 event.2 cache)
    (foldl (λ cache event, ModuleCache.processFileChange event.1 event.2 cache)
       cache events) events =
  foldl (λ cache event, ModuleCache.processFileChange event.1 event.2 cache) cache events.
Proof.
  apply map_eq. intros filePath. rewrite !processed_lookup. by case_decide.
Qed.

(** X10: two notifications handled one after the other leave the graph as
    one notification would that carries the snapshot and the module map of
    the second and the events of both; and a notification handled twice
    leaves the graph as handled once.  Only the number of ['change'] events
    emitted tells the difference. *)
Theorem notifications_coalesce (first second : ChangeEvent) (w : World) :
  this (_onHasteChange second (_onHasteChange first w).2).2 =
    this (_onHasteChange
            {| eventsQueue := eventsQueue first ++ eventsQueue second;
               hasteFS := hasteFS second; moduleMap := moduleMap second |} w).2 ∧
  this (_onHasteChange first (_onHasteChange first w).2).2 =
    this (_onHasteChange first w).2 ∧
  length (emitted (_onHasteChange second (_onHasteChange first w).2).2) =
    S (S (length (emitted w))).
Proof.
  rewrite !_onHasteChange_runs. cbn [snd this emitted]. split_and!.
  - unfold changed. cbn. by rewrite foldl_app.
  - unfold changed. cbn. by rewrite processed_twice.
  - rewrite !length_app. simpl. lia.
Qed.

(** ** Relative paths made of plain segments *)

Lemma join_slash_cons (seg : list ascii) (segs : list (list ascii)) :
  path.join_slash (seg :: segs) = seg ++ abs_chars segs.
Proof.
  destruct segs as [|seg' segs].
  - change (abs_chars []) with (@nil ascii). by rewrite app_nil_r.
  - by rewrite <- (join_slash_abs (seg' :: segs)).
Qed.

Lemma join_slash_snoc (segs : list (list ascii)) (seg : list ascii) :
  segs ≠ [] → path.join_slash (segs ++ [seg]) = path.join_slash segs ++ path.SLASH :: seg.
Proof.
  destruct segs as [|seg0 segs]; [done|]. intros _.
  rewrite <- app_comm_cons, !join_slash_cons, abs_chars_snoc. by rewrite app_assoc.
Qed.

Lemma split_slash_join (segs : list (list ascii)) :
  Forall plain segs → segs ≠ [] → path.split_slash (path.join_slash segs) = segs.
Proof.
  intros Hsegs Hne. destruct segs as [|seg segs]; [done|].
  apply Forall_cons in Hsegs as [(_ & _ & _ & Hslash) Hsegs].
  rewrite join_slash_cons. by apply split_slash_segments.
Qed.

Lemma join_slash_relative (segs : list (list ascii)) (rest : list ascii) :
  Forall plain segs → segs ≠ [] →
  char_is (path.join_slash segs ++ rest) 0 path.SLASH = false ∧
  1 ≤ length (path.join_slash segs).
Proof.
  intros Hsegs Hne. destruct segs as [|seg segs]; [done|].
  apply Forall_cons in Hsegs as [(Hseg & _ & _ & Hslash) _].
  rewrite join_slash_cons. destruct seg as [|c seg]; [done|]. split; [|simpl; lia].
  unfold char_is. simpl. destruct (Ascii.eqb_spec c path.SLASH) as [->|]; [|done].
  exfalso. apply Hslash. by left.
Qed.

Lemma normalize_chars_relative (p : list ascii) :
  char_is p 0 path.SLASH = false →
  char_is p (length p - 1) path.SLASH = false →
  path.normalizeString p true ≠ [] →
  path.normalize_chars p = path.normalizeString p true.
Proof.
  intros Habs Htrail Hne. unfold path.normalize_chars.
  destruct p as [|c p]; [done|]. cbv zeta. rewrite Habs, Htrail. cbn [negb].
  by destruct (path.normalizeString (c :: p) true).
Qed.

(** A relative path of plain segments is its own normal form. *)
Lemma normalize_chars_rel (segs : list (list ascii)) :
  Forall plain segs → segs ≠ [] →
  path.normalize_chars (path.join_slash segs) = path.join_slash segs.
Proof.
  intros Hsegs Hne.
  assert (path.normalizeString (path.join_slash segs) true = path.join_slash segs) as Hnorm.
  { unfold path.normalizeString. rewrite split_slash_join by done.
    by rewrite normalize_plain, app_nil_r, reverse_involutive. }
  destruct (join_slash_relative segs [] Hsegs Hne) as [Hrel Hlen].
  rewrite app_nil_r in Hrel.
  rewrite normalize_chars_relative; rewrite ?Hnorm; [done | done | |].
  - destruct (exists_last Hne) as (segs' & seg & ->).
    apply Forall_app in Hsegs as [_ Hseg]. rewrite Forall_singleton in Hseg.
    destruct Hseg as (Hseg_ne & _ & _ & Hseg_slash).
    destruct segs' as [|seg0 segs'].
    + simpl. apply not_true_is_false. rewrite last_char_is. intros Hlast.
      by apply last_Some_elem_of in Hlast.
    + rewrite join_slash_snoc by done. by apply no_trailing_separator.
  - intros Hnil. rewrite Hnil in Hlen. simpl in Hlen. lia.
Qed.

Lemma chars_rel_path (segs : list string) :
  chars (rel_path segs) = path.join_slash (chars <$> segs).
Proof. apply chars_unchars. Qed.

(** The manifest probed in [s1/.../sn] is [s1/.../sn/package.json]. *)
Lemma manifest_in_rel (segs : list string) :
  forallb is_plain segs = true → segs ≠ [] →
  manifest_in (rel_path segs) = rel_path (segs ++ ["package.json"]).
Proof.
  intros Hsegs%Forall_plain Hne. unfold manifest_in.
  assert (chars <$> segs ≠ []) as Hne' by (by destruct segs).
  destruct (join_slash_relative _ [] Hsegs Hne') as [_ Hlen].
  rewrite join_nonempty; rewrite ?chars_rel_path;
    [|intros Hnil; rewrite Hnil in Hlen; simpl in Hlen; lia|done].
  rewrite <- join_slash_snoc by done. rewrite normalize_chars_rel.
  - unfold rel_path. by rewrite fmap_app.
  - apply Forall_app. split; [done|]. rewrite Forall_singleton. apply plain_manifest.
  - by destruct (chars <$> segs).
Qed.

Lemma dirname_scan_no_slash (p : list ascii) (i : nat) (matchedSlash : bool) :
  path.SLASH ∉ p → path.dirname_scan p i matchedSlash = None.
Proof.
  intros Hp. revert matchedSlash. induction i as [|i IH]; intros matchedSlash; [done|].
  simpl. by rewrite not_slash, IH.
Qed.

Lemma parse_scan_no_slash (p : list ascii) (start k : nat) (matchedSlash : bool) :
  path.SLASH ∉ p → path.parse_scan p start k matchedSlash = 0.
Proof.
  intros Hp. revert matchedSlash. induction k as [|i IH]; intros matchedSlash; [done|].
  simpl. destruct (i <? start); [done|]. by rewrite not_slash, IH.
Qed.

Lemma parse_scan_last_segment_relative (pre seg : list ascii) (k : nat)
    (matchedSlash : bool) :
  path.SLASH ∉ seg → 1 ≤ k →
  path.parse_scan (pre ++ path.SLASH :: seg) 0 (S (length pre) + k) matchedSlash =
  path.parse_scan (pre ++ path.SLASH :: seg) 0 (S (length pre)) false.
Proof.
  intros Hseg. revert matchedSlash. induction k as [|k IH]; intros matchedSlash Hk; [lia|].
  rewrite Nat.add_succ_r. cbn [path.parse_scan].
  destruct (Nat.ltb_spec (S (length pre) + k) 0); [lia|].
  assert (char_is (pre ++ path.SLASH :: seg) (S (length pre) + k) path.SLASH = false) as ->.
  { unfold char_is. rewrite lookup_app_r by lia.
    replace (S (length pre) + k - length pre) with (S k) by lia. simpl.
    by apply not_slash. }
  destruct k as [|k]; [by rewrite Nat.add_0_r|]. apply IH. lia.
Qed.

(** The parent of [s1/.../sn/s] is [s1/.../sn], or [.] when [n = 0]. *)
Lemma dirname_rel (segs : list string) (seg : string) :
  forallb is_plain (segs ++ [seg]) = true →
  path.dirname (rel_path (segs ++ [seg])) = if segs is [] then "." else rel_path segs.
Proof.
  intros Hplain%Forall_plain. rewrite fmap_app in Hplain.
  apply Forall_app in Hplain as [Hsegs Hseg]. cbn [fmap list_fmap] in Hseg.
  rewrite Forall_singleton in Hseg. destruct Hseg as (Hne & _ & _ & Hslash).
  unfold path.dirname, path.dirname_chars. rewrite chars_rel_path, fmap_app.
  cbn [fmap list_fmap]. destruct segs as [|seg0 segs].
  - cbn [app path.join_slash]. destruct (chars seg) as [|c p]; [done|]. cbv beta iota.
    rewrite dirname_scan_no_slash by done. by rewrite not_slash.
  - rewrite join_slash_snoc by done.
    set (pre := path.join_slash (chars <$> seg0 :: segs)).
    destruct (join_slash_relative (chars <$> seg0 :: segs) (path.SLASH :: chars seg))
      as [Hrel Hlen]; [done | done |]. fold pre in Hrel, Hlen.
    destruct (pre ++ path.SLASH :: chars seg) as [|c p] eqn:Hp; [by destruct pre|].
    rewrite <- Hp in Hrel |- *. clear c p Hp. rewrite Hrel.
    replace (length (pre ++ path.SLASH :: chars seg) - 1)
      with (length pre + length (chars seg)) by (rewrite length_app; simpl; lia).
    rewrite dirname_scan_last_segment
      by (done || (destruct (chars seg); [done | simpl; lia])).
    destruct (length pre) as [|n] eqn:Hn; [lia|]. cbn [path.dirname_scan].
    rewrite <- Hn, separator_at. cbn [andb]. unfold slice.
    by rewrite Nat.sub_0_r, drop_0, take_app_length.
Qed.

(** The directory of the file [s1/.../sn/name] is [s1/.../sn], empty when
    [n = 0], and its root is empty. *)
Lemma parse_rel (segs : list string) (name : string) :
  forallb is_plain (segs ++ [name]) = true →
  path.parse (rel_path (segs ++ [name])) =
    {| path.root := ""; path.dir := if segs is [] then "" else rel_path segs |}.
Proof.
  intros Hplain%Forall_plain. rewrite fmap_app in Hplain.
  apply Forall_app in Hplain as [Hsegs Hseg]. cbn [fmap list_fmap] in Hseg.
  rewrite Forall_singleton in Hseg. destruct Hseg as (Hne & _ & _ & Hslash).
  unfold path.parse. rewrite chars_rel_path, fmap_app.
  cbn [fmap list_fmap]. destruct segs as [|seg0 segs].
  - cbn [app path.join_slash]. destruct (chars name) as [|c p]; [done|].
    cbv beta iota zeta. rewrite not_slash by done. by rewrite parse_scan_no_slash.
  - rewrite join_slash_snoc by done.
    set (pre := path.join_slash (chars <$> seg0 :: segs)).
    destruct (join_slash_relative (chars <$> seg0 :: segs) (path.SLASH :: chars name))
      as [Hrel Hlen]; [done | done |]. fold pre in Hrel, Hlen.
    destruct (pre ++ path.SLASH :: chars name) as [|c p] eqn:Hp; [by destruct pre|].
    rewrite <- Hp in Hrel |- *. clear c p Hp. cbv zeta. rewrite Hrel.
    replace (length (pre ++ path.SLASH :: chars name))
      with (S (length pre) + length (chars name)) by (rewrite length_app; simpl; lia).
    rewrite parse_scan_last_segment_relative
      by (done || (destruct (chars name); [done | simpl; lia])).
    cbn [path.parse_scan]. destruct (Nat.ltb_spec (length pre) 0); [lia|].
    rewrite separator_at.
    replace (0 <? length pre + 1) with true by (symmetry; apply Nat.ltb_lt; lia).
    unfold slice. replace (length pre + 1 - 1 - 0) with (length pre) by lia.
    by rewrite drop_0, take_app_length.
Qed.

Lemma rel_path_length (segs : list string) :
  forallb is_plain segs = true → length segs ≤ String.length (rel_path segs).
Proof.
  intros Hplain%Forall_plain. rewrite <- length_chars, chars_rel_path.
  destruct segs as [|seg segs]; [simpl; lia|].
  rewrite fmap_cons in Hplain. apply Forall_cons in Hplain as [(Hne & _) Hsegs].
  rewrite fmap_cons, join_slash_cons, length_app. cbn [length].
  assert (length segs ≤ length (abs_chars (chars <$> segs))) as Hrest.
  { clear Hne. induction segs as [|seg' segs IH]; [simpl; lia|].
    rewrite fmap_cons in Hsegs. apply Forall_cons in Hsegs as [_ Hsegs].
    rewrite fmap_cons, abs_chars_cons. cbn [length]. rewrite length_app.
    specialize (IH Hsegs). lia. }
  destruct (chars seg); [done|]. cbn [length]. lia.
Qed.

Lemma rel_path_not_dot (segs : list string) :
  forallb is_plain segs = true → segs ≠ [] → rel_path segs ≠ "." ∧ rel_path segs ≠ "".
Proof.
  intros Hplain Hne. split; intros Heq.
  - apply Forall_plain in Hplain.
    assert (chars <$> segs ≠ []) as Hne' by (by destruct segs).
    pose proof (split_slash_join _ Hplain Hne') as Hsplit.
    rewrite <- chars_rel_path, Heq in Hsplit.
    rewrite <- Hsplit in Hplain. vm_compute in Hsplit.
    apply Forall_cons in Hplain as [(_ & Hdot & _) _]. by apply Hdot.
  - pose proof (rel_path_length segs Hplain) as Hlen. rewrite Heq in Hlen.
    destruct segs; [done|]. simpl in Hlen. lia.
Qed.

Lemma take_S_nonempty {A} (segs : list A) (k : nat) :
  S k ≤ length segs → take (S k) segs ≠ [].
Proof. destruct segs; [simpl; lia|done]. Qed.

Lemma upward_rel (segs : list string) (k n : nat) :
  forallb is_plain segs = true → S k ≤ length segs → k ≤ n →
  upward n "" (rel_path (take (S k) segs)) = rel_ancestors segs k.
Proof.
  intros Hplain. revert n. induction k as [|k IH]; intros n Hk Hn.
  - destruct segs as [|seg segs]; [simpl in Hk; lia|].
    destruct n as [|n]; [done|]. cbn [upward rel_ancestors].
    change (take 1 (seg :: segs)) with ([] ++ [seg]).
    rewrite (dirname_rel [] seg); [done|]. simpl in *. by apply andb_true_iff in Hplain as [-> _].
  - destruct n as [|n]; [lia|]. cbn [upward rel_ancestors].
    destruct (lookup_lt_is_Some_2 segs (S k)) as [seg Hseg]; [lia|].
    rewrite (take_S_r _ _ _ Hseg).
    rewrite dirname_rel by (rewrite <- (take_S_r _ _ _ Hseg); by apply is_plain_take).
    assert (take (S k) segs ≠ []) as Hne by (apply take_S_nonempty; lia).
    replace (if take (S k) segs is [] then "." else rel_path (take (S k) segs))
      with (rel_path (take (S k) segs)) by (by destruct (take (S k) segs)).
    destruct (rel_path_not_dot (take (S k) segs)) as [Hdot Hempty];
      [by apply is_plain_take | done |].
    destruct (String.eqb_spec (rel_path (take (S k) segs)) ".") as [Heq|_]; [done|].
    destruct (String.eqb_spec (rel_path (take (S k) segs)) "") as [Heq|_]; [done|].
    cbn [orb]. f_equal. apply IH; lia.
Qed.

(** The walk from the relative file [s1/.../sn/name]: the directories
    [s1/.../sn], ..., [s1] when [n > 0], and the empty directory alone when
    the path is a bare file name. *)
Lemma ancestor_chain_rel (segs : list string) (name : string) :
  forallb is_plain (segs ++ [name]) = true →
  ancestor_chain (rel_path (segs ++ [name])) =
    if segs is [] then [""] else rel_ancestors segs (length segs).
Proof.
  intros Hplain. unfold ancestor_chain. rewrite parse_rel by done. cbn [path.root path.dir].
  destruct segs as [|seg segs].
  - unfold upward. destruct (String.length _); [done|]. done.
  - pose proof (rel_path_length _ Hplain) as Hlen. rewrite length_app in Hlen.
    apply is_plain_app in Hplain as [Hplain _].
    set (segs' := seg :: segs) in *.
    assert (take (S (length segs)) segs' = segs') as Htake by apply (firstn_all segs').
    change (length segs') with (S (length segs)). cbn [rel_ancestors]. rewrite Htake. f_equal.
    pose proof (upward_rel segs' (length segs)
                  (String.length (rel_path (segs' ++ [name]))) Hplain) as Hup.
    rewrite Htake in Hup. apply Hup; [done|].
    change (length segs') with (S (length segs)) in Hlen. cbn [length] in Hlen. lia.
Qed.

Lemma rel_ancestors_manifests (segs : list string) (k : nat) :
  forallb is_plain segs = true → k ≤ length segs →
  manifest_in <$> rel_ancestors segs k = rel_manifests segs k.
Proof.
  intros Hplain. induction k as [|k IH]; intros Hk; [done|].
  cbn [rel_ancestors rel_manifests fmap list_fmap]. f_equal; [|apply IH; lia].
  apply manifest_in_rel; [by apply is_plain_take | apply take_S_nonempty; lia].
Qed.

Lemma rel_manifests_nested (segs : list string) (k : nat) :
  forallb is_plain segs = true → k ≤ length segs →
  "package.json" ∉ rel_manifests segs k.
Proof.
  intros Hplain. induction k as [|k IH]; intros Hk; [by intros ?%elem_of_nil|].
  cbn [rel_manifests]. intros [Heq|Hin]%elem_of_cons; [|apply IH; [lia | done]].
  change "package.json" with (rel_path ["package.json"]) in Heq at 1.
  apply rel_path_inj in Heq.
  - apply (f_equal length) in Heq. rewrite length_app, length_take in Heq.
    cbn [length] in Heq. lia.
  - apply is_plain_manifest.
  - apply is_plain_snoc; [by apply is_plain_take | apply is_plain_manifest].
  - done.
  - by destruct (take (S k) segs).
Qed.

(** X11: the walk of [_getClosestPackage] from a relative path.  For the
    bare file name [name] the directory of the path is empty, and the one
    round of the loop probes [package.json], relative to the working
    directory.  For [s1/.../sn/name] with [n > 0] the loop probes
    [s1/.../sn/package.json], ..., [s1/package.json] in this order, stops
    when the parent becomes [.], and returns the first that the registry
    has; [package.json] itself is never probed. *)
Theorem relative_walk_stops_at_first_segment (fuel : nat) (segs : list string)
    (name : string) (w : World) :
  forallb is_plain (segs ++ [name]) = true →
  String.length (rel_path (segs ++ [name])) < fuel →
  _getClosestPackage fuel (rel_path (segs ++ [name])) w =
    (Return (List.find (HasteFS.exists_ (_hasteFS (this w)))
               (if segs is [] then ["package.json"]
                else rel_manifests segs (length segs))), w) ∧
  "package.json" ∉ rel_manifests segs (length segs).
Proof.
  intros Hplain Hfuel. split.
  - rewrite _getClosestPackage_runs by done. rewrite ancestor_chain_rel by done.
    destruct segs as [|seg segs]; [done|].
    rewrite rel_ancestors_manifests; [done | | done].
    by apply is_plain_app in Hplain as [? _].
  - apply rel_manifests_nested; [|done]. by apply is_plain_app in Hplain as [? _].
Qed.

Lemma relative_walk_stops_at_first_segment_witness :
  _getClosestPackage 9 "src/a.js" example.world =
    (Return (List.find (HasteFS.exists_ (_hasteFS (this example.world)))
               ["src/package.json"]), example.world) ∧
  "package.json" ∉ rel_manifests ["src"] 1.
Proof.
  apply (relative_walk_stops_at_first_segment 9 ["src"] "a.js" example.world).
  - vm_compute. reflexivity.
  - vm_compute. lia.
Defined.

(** ** What the queries depend on *)

(** X12: [getSha1] throws exactly when the disk fails it: either
    [fs.realpathSync] fails, and its error surfaces for [filename] whatever
    the registry records, or the real path has no recorded hash and
    [fs.readFileSync] fails on it.  A path with a recorded hash is never
    read. *)
Theorem getSha1_throws_only_disk_errors (w : World) (filename : string) (e : JsError) :
  (getSha1 filename w).1 = Throw e ↔
  (∃ code, fs.realpathSync (disk w) filename = inl code ∧ e = SystemError code filename) ∨
  (∃ resolvedPath code,
     fs.realpathSync (disk w) filename = inr resolvedPath ∧
     truthy (HasteFS.getSha1 (_hasteFS (this w)) resolvedPath) = false ∧
     fs.readFileSync (disk w) resolvedPath = inl code ∧
     e = SystemError code resolvedPath).
Proof.
  destruct (fs.realpathSync (disk w) filename) as [code|resolvedPath] eqn:Hreal.
  { rewrite (getSha1_unresolved w filename code Hreal). cbn [fst]. split.
    - intros [= <-]. left. by exists code.
    - intros [(code' & [= <-] & ->)|(? & ? & [=] & _)]. done. }
  destruct (truthy (HasteFS.getSha1 (_hasteFS (this w)) resolvedPath)) eqn:Hsha.
  { destruct (HasteFS.getSha1 (_hasteFS (this w)) resolvedPath) as [h|] eqn:Hh; [|done].
    pose proof Hsha as Htrue. apply truthy_Some in Hsha.
    rewrite (getSha1_recorded w filename resolvedPath h Hreal Hh Hsha). cbn [fst]. split.
    - intros [=].
    - intros [(? & [=] & _)|(? & ? & [= <-] & Hfalse & _)]. congruence. }
  rewrite (getSha1_unrecorded w filename resolvedPath Hreal Hsha).
  destruct (fs.readFileSync (disk w) resolvedPath) as [code|content] eqn:Hread; cbn [fst]; split.
  - intros [= <-]. right. by exists resolvedPath, code.
  - intros [(? & [=] & _)|(? & code' & [= <-] & _ & Hread' & ->)].
    rewrite Hread in Hread'. by injection Hread' as <-.
  - intros [=].
  - intros [(? & [=] & _)|(? & ? & [= <-] & _ & Hread' & _)].
    rewrite Hread in Hread'. done.
Qed.

Lemma do_while_same {R T} (fuel : nat) (body : T → JS R T) (cond : T → bool) (s : T)
    (w1 w2 : World) :
  (∀ s, (body s w1).1 = (body s w2).1) → (∀ s w, (body s w).2 = w) →
  (do_while fuel body cond s w1).1 = (do_while fuel body cond s w2).1.
Proof.
  intros Hsame Hreads. revert s. induction fuel as [|fuel IH]; intros s; [done|].
  rewrite !do_while_step. specialize (Hsame s).
  pose proof (Hreads s w1) as H1. pose proof (Hreads s w2) as H2.
  destruct (body s w1) as [c1 w1'], (body s w2) as [c2 w2']. simpl in Hsame, H1, H2. subst.
  destruct c2 as [s'| | |]; try done. destruct (cond s'); [apply IH | done].
Qed.

Lemma bind_same {R A B} (m : JS R A) (k : A → JS R B) (w1 w2 : World) :
  (m w1).1 = (m w2).1 → (∀ a w w', (k a w).1 = (k a w').1) →
  (bind m k w1).1 = (bind m k w2).1.
Proof.
  intros Hm Hk. unfold bind. destruct (m w1) as [c1 w1'], (m w2) as [c2 w2'].
  simpl in Hm. subst. destruct c2; first [done | apply Hk].
Qed.

Lemma _getClosestPackage_snapshot (fuel : nat) (filePath : string) (w1 w2 : World) :
  _hasteFS (this w1) = _hasteFS (this w2) →
  (_getClosestPackage fuel filePath w1).1 = (_getClosestPackage fuel filePath w2).1.
Proof.
  intros Hsnapshot. unfold _getClosestPackage. cbv zeta.
  apply bind_same; [|done]. apply do_while_same.
  - intros s. unfold bind, gets. rewrite Hsnapshot. by destruct (HasteFS.exists_ _ _).
  - intros s w. unfold bind, gets. simpl. by destruct (HasteFS.exists_ _ _).
Qed.

Lemma getHasteName_snapshot (filePath : string) (w1 w2 : World) :
  cwd w1 = cwd w2 →
  projectRoot (_config (this w1)) = projectRoot (_config (this w2)) →
  _hasteFS (this w1) = _hasteFS (this w2) →
  (getHasteName filePath w1).1 = (getHasteName filePath w2).1.
Proof.
  intros Hcwd Hroot Hsnapshot.
  destruct (truthy (HasteFS.getModuleName (_hasteFS (this w2)) filePath)) eqn:Hname.
  - destruct (HasteFS.getModuleName (_hasteFS (this w2)) filePath) as [name|] eqn:Hsome;
      [|done].
    apply truthy_Some in Hname.
    rewrite (getHasteName_named w1 filePath name), (getHasteName_named w2 filePath name);
      try done.
    by rewrite Hsnapshot.
  - rewrite !getHasteName_unnamed; rewrite ?Hsnapshot; try done.
    cbn [fst]. by rewrite Hcwd, Hroot.
Qed.

(** X13: the queries answer from the snapshot of the latest notification
    alone.  Two graphs on the same disk, with the same working directory and
    project root, that handle the same notification give the same answers to
    [getSha1], [getHasteName] and [_getClosestPackage] from then on,
    whatever their snapshots, module maps and caches were before. *)
Theorem queries_answer_from_the_notified_snapshot (event : ChangeEvent) (w1 w2 : World) :
  disk w1 = disk w2 → cwd w1 = cwd w2 →
  projectRoot (_config (this w1)) = projectRoot (_config (this w2)) →
  let w1' := (_onHasteChange event w1).2 in
  let w2' := (_onHasteChange event w2).2 in
  (∀ filename, (getSha1 filename w1').1 = (getSha1 filename w2').1) ∧
  (∀ filePath, (getHasteName filePath w1').1 = (getHasteName filePath w2').1) ∧
  (∀ fuel filePath,
     (_getClosestPackage fuel filePath w1').1 = (_getClosestPackage fuel filePath w2').1).
Proof.
  intros Hdisk Hcwd Hroot. cbv zeta. rewrite !_onHasteChange_runs. cbn [snd]. split_and!.
  - intros filename. apply getSha1_reads; cbn [disk this changed _hasteFS].
    + by rewrite Hdisk.
    + intros resolvedPath _. by rewrite Hdisk.
  - intros filePath. apply getHasteName_snapshot; cbn [cwd this changed _hasteFS _config]; done.
  - intros fuel filePath. by apply _getClosestPackage_snapshot.
Qed.

Lemma queries_answer_from_the_notified_snapshot_witness :
  (getSha1 "/proj/link.js"
     (_onHasteChange
        {| eventsQueue := [(ModuleCache.change, "/proj/src/b.js")];
           hasteFS := HasteFS.of_files example.table; moduleMap := ∅ |}
        example.nameless_world).2).1 =
  (getSha1 "/proj/link.js"
     (_onHasteChange
        {| eventsQueue := [(ModuleCache.change, "/proj/src/b.js")];
           hasteFS := HasteFS.of_files example.table; moduleMap := ∅ |}
        example.root_world).2).1.
Proof.
  apply (queries_answer_from_the_notified_snapshot
           {| eventsQueue := [(ModuleCache.change, "/proj/src/b.js")];
              hasteFS := HasteFS.of_files example.table; moduleMap := ∅ |}
           example.nameless_world example.root_world); reflexivity.
Defined.

(** ** The walk of [_getClosestPackage], directory by directory *)

Lemma ancestors_abs_manifests (segs : list string) (k : nat) :
  forallb is_plain segs = true → k ≤ length segs →
  manifest_in <$> ancestors segs k = abs_manifests segs k.
Proof.
  intros Hplain. induction k as [|k IH]; intros Hk; [done|].
  cbn [ancestors abs_manifests fmap list_fmap]. f_equal; [|apply IH; lia].
  apply manifest_in_abs; [by apply is_plain_take | apply take_S_nonempty; lia].
Qed.

Lemma rel_path_shorter (segs : list string) :
  String.length (rel_path segs) ≤ String.length (abs_path segs).
Proof.
  rewrite <- !length_chars, chars_rel_path, chars_abs_path.
  destruct segs as [|seg segs]; [done|].
  rewrite <- (join_slash_abs (chars <$> seg :: segs)) by done. cbn [length]. lia.
Qed.

(** The claim C5 as stated fails: the walk stops before the root of the
    path.  [/] is an ancestor directory of [/a/b.js] and its manifest
    [/package.json] is in the registry, yet no manifest is found. *)
Lemma closest_package_walk_stops_below_root :
  path.dirname (path.dirname "/a/b.js") = "/" ∧
  path.join "/" "package.json" = "/package.json" ∧
  HasteFS.exists_ (_hasteFS (this example.root_world)) "/package.json" = true ∧
  _getClosestPackage 8 "/a/b.js" example.root_world = (Return None, example.root_world).
Proof. split_and!; vm_compute; reflexivity. Qed.

(** C5, amended: for a file [/s1/.../sn/name] of plain segments with [n >= 1],
    [_getClosestPackage] starts at the file's own directory [/s1/.../sn],
    walks up to [/s1], and returns the manifest of the first of these
    directories whose [package.json] is in the registry, or [null] when none
    has one; the root of the path is not part of the walk.  Only for a file
    directly in the root ([n = 0]) the one directory probed is the root.
    The same holds for the relative path [s1/.../sn/name], where the walk
    ends at [s1] and a bare file name has [package.json] probed. *)
Theorem getClosestPackage_first_manifest_below_root (fuel : nat) (segs : list string)
    (name : string) (w : World) :
  forallb is_plain (segs ++ [name]) = true →
  String.length (abs_path (segs ++ [name])) < fuel →
  _getClosestPackage fuel (abs_path (segs ++ [name])) w =
    (Return (List.find (HasteFS.exists_ (_hasteFS (this w)))
               (if segs is [] then ["/package.json"]
                else abs_manifests segs (length segs))), w) ∧
  _getClosestPackage fuel (rel_path (segs ++ [name])) w =
    (Return (List.find (HasteFS.exists_ (_hasteFS (this w)))
               (if segs is [] then ["package.json"]
                else rel_manifests segs (length segs))), w).
Proof.
  intros Hplain Hfuel.
  pose proof (rel_path_shorter (segs ++ [name])) as Hshorter.
  pose proof Hplain as [Hsegs _]%is_plain_app. split.
  - rewrite _getClosestPackage_runs by done. rewrite ancestor_chain_abs by done.
    destruct segs as [|seg segs]; [done|]. by rewrite ancestors_abs_manifests.
  - rewrite _getClosestPackage_runs by lia. rewrite ancestor_chain_rel by done.
    destruct segs as [|seg segs]; [done|]. by rewrite rel_ancestors_manifests.
Qed.

Lemma getClosestPackage_first_manifest_below_root_witness :
  _getClosestPackage 15 "/proj/src/b.js" example.world =
    (Return (Some "/proj/package.json"), example.world) ∧
  _getClosestPackage 15 "proj/src/b.js" example.world = (Return None, example.world).
Proof.
  destruct (getClosestPackage_first_manifest_below_root 15 ["proj"; "src"] "b.js"
              example.world) as [Habs Hrel];
    [vm_compute; reflexivity | vm_compute; lia |].
  split; [refine (eq_trans Habs _) | refine (eq_trans Hrel _)]; vm_compute; reflexivity.
Defined.
